(** * 404: a multithreaded dead link crawler

    A shallow embedding of [Source/404.py] and the properties of its crawl
    engine.

    Layout of the development:
    - [PyStr]: the few operations of Python's [str] that the program and the
      URL library rely on;
    - [urllib_parse]: a model of the functions of Python's standard
      [urllib.parse] that the program calls ([urlparse], [urldefrag],
      [urljoin]); the library is not part of the repository, so the crawler
      itself is written against the interface [UrlLib] and every general
      theorem holds for any implementation of it;
    - [LinkTask], [Queue], [ThreadPool], [Worker]: the classes of the program;
    - [run], [main]: the orchestrator, as a transition system in which a
      scheduler picks the thread (main thread or worker [i]) that runs next;
    - invariants of the reachable states, then the properties. *)

From Stdlib Require Import ZArith Lia Ascii String.
From stdpp Require Import gmap strings list pretty relations.

Local Open Scope string_scope.
Local Open Scope list_scope.
Local Open Scope Z_scope.

(** ** Python strings *)

Module PyStr.

(** [c in s] *)
Fixpoint contains (c : ascii) (s : string) : bool :=
  match s with
  | EmptyString => false
  | String a s' => if Ascii.eqb a c then true else contains c s'
  end.

(** [s.partition(c)], with [None] for the tail when [c] does not occur. *)
Fixpoint partition (c : ascii) (s : string) : string * option string :=
  match s with
  | EmptyString => (EmptyString, None)
  | String a s' =>
      if Ascii.eqb a c then (EmptyString, Some s')
      else let '(h, t) := partition c s' in (String a h, t)
  end.

(** [s.split(c)] *)
Fixpoint split (c : ascii) (s : string) : list string :=
  match s with
  | EmptyString => [EmptyString]
  | String a s' =>
      if Ascii.eqb a c then EmptyString :: split c s'
      else match split c s' with
           | [] => [String a EmptyString]
           | h :: t => String a h :: t
           end
  end.

(** [c.join(l)] *)
Fixpoint join (c : string) (l : list string) : string :=
  match l with
  | [] => EmptyString
  | [x] => x
  | x :: l' => x +:+ c +:+ join c l'
  end.

Definition between (lo hi : N) (c : ascii) : bool :=
  (lo <=? N_of_ascii c)%N && (N_of_ascii c <=? hi)%N.

Definition is_upper (c : ascii) : bool := between 65 90 c.
Definition is_lower (c : ascii) : bool := between 97 122 c.
Definition is_digit (c : ascii) : bool := between 48 57 c.
Definition is_alpha (c : ascii) : bool := is_upper c || is_lower c.

Definition lower_ascii (c : ascii) : ascii :=
  if is_upper c then ascii_of_N (N_of_ascii c + 32) else c.

(** [s.lower()] on ASCII text *)
Fixpoint lower (s : string) : string :=
  match s with
  | EmptyString => EmptyString
  | String a s' => String (lower_ascii a) (lower s')
  end.

Fixpoint forall_chars (p : ascii → bool) (s : string) : bool :=
  match s with
  | EmptyString => true
  | String a s' => p a && forall_chars p s'
  end.

Fixpoint remove_chars (p : ascii → bool) (s : string) : string :=
  match s with
  | EmptyString => EmptyString
  | String a s' => if p a then remove_chars p s' else String a (remove_chars p s')
  end.

(** [s.lstrip(chars)], [chars] given as a predicate *)
Fixpoint lstrip (p : ascii → bool) (s : string) : string :=
  match s with
  | EmptyString => EmptyString
  | String a s' => if p a then lstrip p s' else s
  end.

Definition rstrip (p : ascii → bool) (s : string) : string :=
  String.rev (lstrip p (String.rev s)).

Definition strip (p : ascii → bool) (s : string) : string :=
  rstrip p (lstrip p s).

(** The characters [str.strip()] removes from ASCII text. *)
Definition is_whitespace (c : ascii) : bool :=
  between 9 13 c || between 28 32 c.

(** [s.startswith(p)] *)
Definition startswith (p s : string) : bool := String.prefix p s.

(** [not s]: the empty string is the only false one. *)
Definition is_empty (s : string) : bool :=
  match s with EmptyString => true | _ => false end.

(** [s[:1]] *)
Definition first_char (s : string) : option ascii :=
  match s with EmptyString => None | String a _ => Some a end.

End PyStr.

(** ** Exceptions

    The program tells exactly two kinds of exception apart:
    [isinstance(exc_obj, Timeout)] or not.  [exc_str] is [str(exc_obj)]. *)

Inductive exc : Type :=
| Timeout (msg : string)
| OtherError (cls : string) (msg : string).

Definition isinstance_Timeout (e : exc) : bool :=
  match e with Timeout _ => true | OtherError _ _ => false end.

Definition exc_str (e : exc) : string :=
  match e with Timeout m => m | OtherError _ m => m end.

(** A computation that either raises or returns. *)
Definition result (A : Type) : Type := exc + A.

(** ** The URL library

    [urllib.parse.urlparse(u)] returns a 6-tuple; the program reads
    [.scheme] and [.netloc]. *)

Module ParseResult.
Record t : Type := mk {
  scheme : string;
  netloc : string;
  path : string;
  params : string;
  query : string;
  fragment : string
}.
End ParseResult.

(** The three library functions the program calls.  [urljoin] runs inside
    the task's [try] block and may raise there; [urlparse] and [urldefrag]
    are called by the orchestrator on the results of [urljoin]. *)
Class UrlLib : Type := {
  urlparse : string → ParseResult.t;
  urldefrag : string → string;
  urljoin : string → string → result string
}.

(** A model of CPython's [urllib/parse.py] (3.11), for [str] arguments made
    of ASCII text.  The paths that raise [ValueError] (bracketed IPv6 hosts,
    the NFKC check of non-ASCII hosts) and the result cache are left out. *)
Module urllib_parse.
Import PyStr ParseResult.

Definition uses_relative : list string :=
  [""; "ftp"; "http"; "gopher"; "nntp"; "imap"; "wais"; "file"; "https";
   "shttp"; "mms"; "prospero"; "rtsp"; "rtspu"; "sftp"; "svn"; "svn+ssh";
   "ws"; "wss"].

Definition uses_netloc : list string :=
  [""; "ftp"; "http"; "gopher"; "nntp"; "telnet"; "imap"; "wais"; "file";
   "mms"; "https"; "shttp"; "snews"; "prospero"; "rtsp"; "rtspu"; "rsync";
   "svn"; "svn+ssh"; "sftp"; "nfs"; "git"; "git+ssh"; "ws"; "wss"].

Definition uses_params : list string :=
  [""; "ftp"; "hdl"; "prospero"; "http"; "imap"; "https"; "shttp"; "rtsp";
   "rtspu"; "sip"; "sips"; "mms"; "sftp"; "tel"].

Definition mem (s : string) (l : list string) : bool :=
  existsb (String.eqb s) l.

(** [c in scheme_chars]: letters, digits and [+-.] *)
Definition scheme_char (c : ascii) : bool :=
  is_alpha c || is_digit c
  || Ascii.eqb c "+" || Ascii.eqb c "-" || Ascii.eqb c ".".

(** [c in _WHATWG_C0_CONTROL_OR_SPACE] *)
Definition c0_control_or_space (c : ascii) : bool := between 0 32 c.

(** [c in _UNSAFE_URL_BYTES_TO_REMOVE]: tab, carriage return, newline *)
Definition unsafe_url_byte (c : ascii) : bool :=
  Ascii.eqb c "009" || Ascii.eqb c "013" || Ascii.eqb c "010".

(** [_splitnetloc(url, 2)] for a [url] that starts with two slashes:
    the text up to the first of [/?#], and the rest. *)
Fixpoint splitnetloc_from (s : string) : string * string :=
  match s with
  | EmptyString => (EmptyString, EmptyString)
  | String a s' =>
      if Ascii.eqb a "/" || Ascii.eqb a "?" || Ascii.eqb a "#"
      then (EmptyString, s)
      else let '(n, r) := splitnetloc_from s' in (String a n, r)
  end.

Definition _splitnetloc (url : string) : string * string :=
  match url with
  | String _ (String _ s) => splitnetloc_from s
  | _ => (EmptyString, EmptyString)
  end.

Record SplitResult : Type := mkSplitResult {
  s_scheme : string;
  s_netloc : string;
  s_path : string;
  s_query : string;
  s_fragment : string
}.

Definition urlsplit (url scheme : string) : SplitResult :=
  let url := remove_chars unsafe_url_byte (lstrip c0_control_or_space url) in
  let scheme := remove_chars unsafe_url_byte (strip c0_control_or_space scheme) in
  let '(scheme, url) :=
    match partition ":" url with
    | (pre, Some rest) =>
        if negb (is_empty pre)
           && from_option is_alpha false (first_char pre)
           && forall_chars scheme_char pre
        then (lower pre, rest)
        else (scheme, url)
    | (_, None) => (scheme, url)
    end in
  let '(netloc, url) :=
    if startswith "//" url then _splitnetloc url else (EmptyString, url) in
  let '(url, fragment) :=
    match partition "#" url with
    | (u, Some f) => (u, f)
    | (u, None) => (u, EmptyString)
    end in
  let '(url, query) :=
    match partition "?" url with
    | (u, Some q) => (u, q)
    | (u, None) => (u, EmptyString)
    end in
  mkSplitResult scheme netloc url query fragment.

(** [s.rpartition(c)] as [(head, Some tail)], or [(s, None)] without [c]. *)
Definition rpartition (c : ascii) (s : string) : string * option string :=
  match partition c (String.rev s) with
  | (t, Some h) => (String.rev h, Some (String.rev t))
  | (_, None) => (s, None)
  end.

Definition _splitparams (url : string) : string * string :=
  match rpartition "/" url with
  | (dir, Some last) =>
      match partition ";" last with
      | (p, Some a) => (dir +:+ "/" +:+ p, a)
      | (_, None) => (url, EmptyString)
      end
  | (_, None) =>
      match partition ";" url with
      | (p, Some a) => (p, a)
      | (_, None) => (url, EmptyString)
      end
  end.

Definition urlparse (url scheme : string) : ParseResult.t :=
  let r := urlsplit url scheme in
  let '(url, params) :=
    if mem (s_scheme r) uses_params && contains ";" (s_path r)
    then _splitparams (s_path r)
    else (s_path r, EmptyString) in
  ParseResult.mk (s_scheme r) (s_netloc r) url params (s_query r) (s_fragment r).

Definition urlunsplit (scheme netloc url query fragment : string) : string :=
  let url :=
    if negb (is_empty netloc)
       || (negb (is_empty scheme) && mem scheme uses_netloc
           && negb (startswith "//" url))
    then
      let url :=
        if negb (is_empty url) && negb (startswith "/" url)
        then "/" +:+ url else url in
      "//" +:+ netloc +:+ url
    else url in
  let url := if negb (is_empty scheme) then scheme +:+ ":" +:+ url else url in
  let url := if negb (is_empty query) then url +:+ "?" +:+ query else url in
  if negb (is_empty fragment) then url +:+ "#" +:+ fragment else url.

Definition urlunparse (scheme netloc url params query fragment : string) : string :=
  let url := if negb (is_empty params) then url +:+ ";" +:+ params else url in
  urlunsplit scheme netloc url query fragment.

Definition urldefrag (url : string) : string :=
  if contains "#" url then
    let r := urlparse url EmptyString in
    urlunparse (scheme r) (netloc r) (path r) (params r) (query r) EmptyString
  else url.

(** [segments[1:-1] = filter(None, segments[1:-1])] *)
Definition drop_inner_empty (segments : list string) : list string :=
  match segments with
  | first :: (_ :: _) as rest =>
      first :: filter (λ s, is_empty s = false) (removelast rest)
            ++ [List.last rest EmptyString]
  | _ => segments
  end.

(** The loop of [urljoin] that resolves [.] and [..] segments. *)
Definition resolve_segments (segments : list string) : list string :=
  fold_left
    (λ resolved seg,
       if String.eqb seg ".." then removelast resolved
       else if String.eqb seg "." then resolved
       else resolved ++ [seg])
    segments [].

Definition urljoin (base url : string) : string :=
  if is_empty base then url
  else if is_empty url then base
  else
    let b := urlparse base EmptyString in
    let u := urlparse url (scheme b) in
    if negb (String.eqb (scheme u) (scheme b))
       || negb (mem (scheme u) uses_relative)
    then url
    else if mem (scheme u) uses_netloc && negb (is_empty (netloc u))
    then urlunparse (scheme u) (netloc u) (path u) (params u) (query u)
                    (fragment u)
    else
      let netloc' := if mem (scheme u) uses_netloc then netloc b else netloc u in
      if is_empty (path u) && is_empty (params u)
      then
        urlunparse (scheme u) netloc' (path b) (params b)
                   (if is_empty (query u) then query b else query u)
                   (fragment u)
      else
        let base_parts := split "/" (path b) in
        let base_parts :=
          if negb (is_empty (List.last base_parts EmptyString))
          then removelast base_parts else base_parts in
        let segments :=
          if startswith "/" (path u) then split "/" (path u)
          else drop_inner_empty (base_parts ++ split "/" (path u)) in
        let resolved_path := resolve_segments segments in
        let resolved_path :=
          if mem (List.last segments EmptyString) ["."; ".."]
          then resolved_path ++ [EmptyString] else resolved_path in
        let joined := join "/" resolved_path in
        urlunparse (scheme u) netloc'
                   (if is_empty joined then "/" else joined)
                   (params u) (query u) (fragment u).

(** The [hostname] attribute of a parse result: the host subcomponent of
    the network location, without user information and port, lower-cased.
    The program never reads it; it is the reference point for what a
    URL's host is. *)
Definition hostname (r : ParseResult.t) : string :=
  let hostinfo :=
    match rpartition "@" (netloc r) with
    | (_, Some h) => h
    | (n, None) => n
    end in
  lower (fst (partition ":" hostinfo)).

End urllib_parse.

(** The library as the program sees it. *)
Definition CPython : UrlLib := {|
  urlparse u := urllib_parse.urlparse u EmptyString;
  urldefrag := urllib_parse.urldefrag;
  urljoin base u := inr (urllib_parse.urljoin base u)
|}.

(** ** The network and the HTML parser

    [requests.get(link, timeout = ..., allow_redirects = ..., stream = True)]
    either raises or returns a response.  Of a response the program reads
    the status code, the [content-type] header, and the parse tree that
    [BeautifulSoup(response.content, 'html.parser', ...)] builds from the
    body; reading and parsing the body may raise as well.  A parse tree is
    given by its tags in document order, each with its attribute dictionary. *)

Record Tag : Type := mkTag {
  tag_name : string;
  tag_attrs : gmap string string
}.

Record Response : Type := mkResponse {
  status_code : Z;
  content_type : option string;
  content : result (list Tag)
}.

Class Requests : Type := {
  requests_get : string → option Z → bool → result Response
}.

(** [link_strainer]: a strainer that only cares about links and images. *)
Definition link_strainer (name : string) (attrs : gmap string string) : bool :=
  String.eqb name "a" || String.eqb name "img".

(** [BeautifulSoup(..., parse_only = link_strainer)] *)
Definition BeautifulSoup (tags : list Tag) : list Tag :=
  filter (λ tag, link_strainer (tag_name tag) (tag_attrs tag) = true) tags.

(** [soup.find_all(name, attr = True)] *)
Definition find_all (name attr : string) (soup : list Tag) : list Tag :=
  filter (λ tag, tag_name tag = name ∧ is_Some (tag_attrs tag !! attr)) soup.

(** [tag[key]] *)
Definition getitem (tag : Tag) (key : string) : result string :=
  match tag_attrs tag !! key with
  | Some v => inr v
  | None => inl (OtherError "KeyError" key)
  end.

(** [l] is what [tag[attr]] resolves to against [base]. *)
Definition resolved `{UrlLib} (base attr : string) (tag : Tag) (l : string) : Prop :=
  ∃ target, tag_attrs tag !! attr = Some target ∧ urljoin base target = inr l.

(** ** Tasks *)

Module LinkTask.

Record t : Type := mk {
  link : string;
  parse_links : bool;
  timeout : option Z;
  allow_redirects : bool;
  (* the links found in the url body when HTML and parse_links = True *)
  links : list string;
  (* the status code after executing run() *)
  status : option Z;
  (* exception information is captured here *)
  exception : option exc
}.

Definition __init__ (link : string) (parse_links : bool) (timeout : option Z)
    (allow_redirects : bool) : t :=
  mk link parse_links timeout allow_redirects [] None None.

(** The body of [run] mutates [self] and may raise at any point: a state
    monad over the task, with exceptions.  What was written to [self]
    before an exception stays written. *)
Definition M (A : Type) : Type := t → t * result A.

Definition ret {A} (x : A) : M A := λ self, (self, inr x).

Definition bind {A B} (m : M A) (k : A → M B) : M B :=
  λ self,
    match m self with
    | (self', inr x) => k x self'
    | (self', inl e) => (self', inl e)
    end.

Definition lift {A} (r : result A) : M A := λ self, (self, r).

Definition read {A} (f : t → A) : M A := λ self, (self, inr (f self)).

Definition set_status (st : Z) : M unit :=
  λ self,
    (mk (link self) (parse_links self) (timeout self) (allow_redirects self)
        (links self) (Some st) (exception self), inr tt).

(** [self.links.append(l)] *)
Definition links_append (l : string) : M unit :=
  λ self,
    (mk (link self) (parse_links self) (timeout self) (allow_redirects self)
        (links self ++ [l]) (status self) (exception self), inr tt).

Definition set_exception (e : exc) (self : t) : t :=
  mk (link self) (parse_links self) (timeout self) (allow_redirects self)
     (links self) (status self) (Some e).

#[global] Instance M_ret : MRet M := @ret.
#[global] Instance M_bind : MBind M := λ A B k m, bind m k.

Fixpoint for_each {A} (body : A → M unit) (l : list A) : M unit :=
  match l with
  | [] => ret tt
  | x :: l' => body x ;; for_each body l'
  end.

Definition client_or_server_error (status : Z) : bool :=
  (400 <=? status) && (status <? 600).

(** [content_type.startswith(('text/html', 'application/xhtml+xml'))] *)
Definition is_html (content_type : string) : bool :=
  PyStr.startswith "text/html" content_type
  || PyStr.startswith "application/xhtml+xml" content_type.

(** One of the two loops over the tags: resolve [tag[attr]] against
    [self.link] and append it. *)
Definition collect `{UrlLib} (attr : string) (tag : Tag) : M unit :=
  base ← read link;
  target ← lift (getitem tag attr);
  absolute_link ← lift (urljoin base target);
  links_append absolute_link.

(** The [try] block of [run]. *)
Definition run_body `{UrlLib, Requests} : M unit :=
  url ← read link;
  tmo ← read timeout;
  redirects ← read allow_redirects;
  response ← lift (requests_get url tmo redirects);
  set_status (status_code response) ;;
  parse ← read parse_links;
  (* when not looking for links, we have all the information needed *)
  if negb parse then ret tt
  (* when the status is a client/server error, don't look for links either *)
  else if client_or_server_error (status_code response) then ret tt
  else
    let content_type :=
      PyStr.strip PyStr.is_whitespace (default "" (content_type response)) in
    (* when not html/xml, no links *)
    if negb (is_html content_type) then ret tt
    else
      tags ← lift (content response);
      let soup := BeautifulSoup tags in
      for_each (collect "href") (find_all "a" "href" soup) ;;
      for_each (collect "src") (find_all "img" "src" soup).

(** [run]: the bare [except:] stores whatever was raised. *)
Definition run `{UrlLib, Requests} (self : t) : t :=
  match run_body self with
  | (self', inr _) => self'
  | (self', inl e) => set_exception e self'
  end.

End LinkTask.

(** ** Queues

    [queue.Queue] as the program uses it: a FIFO and the counter of
    unfinished tasks that [join] waits on. *)

Module Queue.

Record t : Type := mk {
  items : list LinkTask.t;
  unfinished_tasks : Z
}.

Definition empty : t := mk [] 0.

Definition put (x : LinkTask.t) (q : t) : t :=
  mk (items q ++ [x]) (unfinished_tasks q + 1).

(** [get]: [None] when the queue is empty (a blocking [get] waits,
    [get(block = False)] raises [queue.Empty]). *)
Definition get (q : t) : option (LinkTask.t * t) :=
  match items q with
  | [] => None
  | x :: rest => Some (x, mk rest (unfinished_tasks q))
  end.

Definition task_done (q : t) : t :=
  mk (items q) (unfinished_tasks q - 1).

(** [join] returns once every task put in the queue was marked done. *)
Definition joinable (q : t) : bool := unfinished_tasks q =? 0.

End Queue.

(** ** Worker threads

    A worker is a thread in an endless loop of four statements; its state is
    the statement it is at.  [task.run()] touches only the task, so it is
    one step together with the [put] that follows it. *)

Module Worker.

Inductive t : Type :=
| AtGet                          (* task = self.todo.get() *)
| AtRun (task : LinkTask.t)      (* task.run(); self.done.put(task) *)
| AtTaskDone.                    (* self.todo.task_done() *)

Definition step `{UrlLib, Requests} (w : t) (todo done : Queue.t) :
    option (t * Queue.t * Queue.t) :=
  match w with
  | AtGet =>
      match Queue.get todo with
      | Some (task, todo') => Some (AtRun task, todo', done)
      | None => None
      end
  | AtRun task => Some (AtTaskDone, todo, Queue.put (LinkTask.run task) done)
  | AtTaskDone => Some (AtGet, Queue.task_done todo, done)
  end.

End Worker.

(** ** The thread pool *)

Module ThreadPool.

Record t : Type := mk {
  threads : Z;
  todo : Queue.t;
  done : Queue.t;
  pending_tasks : Z
}.

Definition __init__ (threads : Z) : t := mk threads Queue.empty Queue.empty 0.

Definition add_task (task : LinkTask.t) (self : t) : t :=
  mk (threads self) (Queue.put task (todo self)) (done self)
     (pending_tasks self + 1).

(** [start]: [for x in range(self.threads): Worker(self.todo, self.done)] *)
Definition start (self : t) : list Worker.t :=
  replicate (Z.to_nat (threads self)) Worker.AtGet.

(** One attempt of [wait_for_task]: [None] is [queue.Empty], after which
    the method sleeps and tries again. *)
Definition wait_for_task (self : t) : option (LinkTask.t * t) :=
  match Queue.get (done self) with
  | Some (task, done') =>
      Some (task, mk (threads self) (todo self) done' (pending_tasks self))
  | None => None
  end.

(** [self.pending_tasks -= 1], when [poll_completed_tasks] is resumed. *)
Definition resume (self : t) : t :=
  mk (threads self) (todo self) (done self) (pending_tasks self - 1).

Definition with_queues (todo done : Queue.t) (self : t) : t :=
  mk (threads self) todo done (pending_tasks self).

End ThreadPool.

(** ** The main program *)

(** The values of [--internal] and [--external]. *)
Inductive Policy : Type := check | ignore | follow.

Definition Policy_eqb (p q : Policy) : bool :=
  match p, q with
  | check, check | ignore, ignore | follow, follow => true
  | _, _ => false
  end.

(** The values of [--newline]. *)
Inductive NewlineMode : Type := dos | mac | unix | system.

(** [BYTES_NEWLINES], given [os.linesep]. *)
Definition BYTES_NEWLINES (linesep : string) (mode : NewlineMode) : string :=
  match mode with
  | dos => String "013" (String "010" EmptyString)
  | mac => String "013" EmptyString
  | unix => String "010" EmptyString
  | system => linesep
  end.

(** The arguments of [run]. *)
Module Args.
Record t : Type := mk {
  url : string;
  allow_redirects : bool;
  internal : Policy;
  external : Policy;
  newline : string;
  print_all : bool;
  quiet : bool;
  threads : Z;
  timeout : option Z
}.
End Args.

(** What the program writes to standard error.  The first line of the final
    statistics also shows the elapsed processor time, which is not modelled. *)
Inductive ErrLine : Type :=
| errln (line : string)                    (* 404.py: error: line *)
| print_checked (st_total_links : Z)       (* Checked {} total links in ... seconds. *)
| print_scopes (st_total_internal st_total_external : Z)
                                           (* {} internal, {} external. *)
| print_errors (st_error_task st_error_link : Z).
                                           (* {} network/parsing errors, {} link errors. *)

(** Where the main thread is in [run]. *)
Inductive MainPC : Type :=
| AtPoll                          (* poll_completed_tasks: while self.pending_tasks > 0 *)
| InBody (rest : list string)     (* in the loop body, with the links still to visit *)
| AtJoin                          (* poll_completed_tasks: self.todo.join() *)
| Exited (code : Z)               (* sys.exit(status) *)
| Uncaught (e : exc).             (* an exception left run *)

(** The state of the process: the main thread's position and the local
    variables of [run], the pool with its two shared queues, the worker
    threads, and what was written so far.  [added] and [yielded] record
    the calls of [pool.add_task] and the tasks that [poll_completed_tasks]
    yielded, in order; the program does not read them. *)
Record State : Type := mkState {
  pc : MainPC;
  pool : ThreadPool.t;
  workers : list Worker.t;
  status : Z;
  link_cache : gset string;
  netloc : string;
  st_total_links : Z;
  st_total_internal : Z;
  st_total_external : Z;
  st_error_task : Z;
  st_error_link : Z;
  stdout : list string;
  stderr : list ErrLine;
  added : list LinkTask.t;
  yielded : list LinkTask.t
}.

Definition set_pc (x : MainPC) (s : State) : State :=
  mkState x (pool s) (workers s) (status s) (link_cache s) (netloc s)
    (st_total_links s) (st_total_internal s) (st_total_external s)
    (st_error_task s) (st_error_link s) (stdout s) (stderr s) (added s)
    (yielded s).

Definition set_pool (x : ThreadPool.t) (s : State) : State :=
  mkState (pc s) x (workers s) (status s) (link_cache s) (netloc s)
    (st_total_links s) (st_total_internal s) (st_total_external s)
    (st_error_task s) (st_error_link s) (stdout s) (stderr s) (added s)
    (yielded s).

Definition set_workers (x : list Worker.t) (s : State) : State :=
  mkState (pc s) (pool s) x (status s) (link_cache s) (netloc s)
    (st_total_links s) (st_total_internal s) (st_total_external s)
    (st_error_task s) (st_error_link s) (stdout s) (stderr s) (added s)
    (yielded s).

Definition set_status (x : Z) (s : State) : State :=
  mkState (pc s) (pool s) (workers s) x (link_cache s) (netloc s)
    (st_total_links s) (st_total_internal s) (st_total_external s)
    (st_error_task s) (st_error_link s) (stdout s) (stderr s) (added s)
    (yielded s).

Definition set_link_cache (x : gset string) (s : State) : State :=
  mkState (pc s) (pool s) (workers s) (status s) x (netloc s)
    (st_total_links s) (st_total_internal s) (st_total_external s)
    (st_error_task s) (st_error_link s) (stdout s) (stderr s) (added s)
    (yielded s).

Definition set_st_total_links (x : Z) (s : State) : State :=
  mkState (pc s) (pool s) (workers s) (status s) (link_cache s) (netloc s)
    x (st_total_internal s) (st_total_external s)
    (st_error_task s) (st_error_link s) (stdout s) (stderr s) (added s)
    (yielded s).

Definition set_st_total_internal (x : Z) (s : State) : State :=
  mkState (pc s) (pool s) (workers s) (status s) (link_cache s) (netloc s)
    (st_total_links s) x (st_total_external s)
    (st_error_task s) (st_error_link s) (stdout s) (stderr s) (added s)
    (yielded s).

Definition set_st_total_external (x : Z) (s : State) : State :=
  mkState (pc s) (pool s) (workers s) (status s) (link_cache s) (netloc s)
    (st_total_links s) (st_total_internal s) x
    (st_error_task s) (st_error_link s) (stdout s) (stderr s) (added s)
    (yielded s).

Definition set_st_error_task (x : Z) (s : State) : State :=
  mkState (pc s) (pool s) (workers s) (status s) (link_cache s) (netloc s)
    (st_total_links s) (st_total_internal s) (st_total_external s)
    x (st_error_link s) (stdout s) (stderr s) (added s) (yielded s).

Definition set_st_error_link (x : Z) (s : State) : State :=
  mkState (pc s) (pool s) (workers s) (status s) (link_cache s) (netloc s)
    (st_total_links s) (st_total_internal s) (st_total_external s)
    (st_error_task s) x (stdout s) (stderr s) (added s) (yielded s).

Definition set_stdout (x : list string) (s : State) : State :=
  mkState (pc s) (pool s) (workers s) (status s) (link_cache s) (netloc s)
    (st_total_links s) (st_total_internal s) (st_total_external s)
    (st_error_task s) (st_error_link s) x (stderr s) (added s) (yielded s).

Definition set_stderr (x : list ErrLine) (s : State) : State :=
  mkState (pc s) (pool s) (workers s) (status s) (link_cache s) (netloc s)
    (st_total_links s) (st_total_internal s) (st_total_external s)
    (st_error_task s) (st_error_link s) (stdout s) x (added s) (yielded s).

Definition set_added (x : list LinkTask.t) (s : State) : State :=
  mkState (pc s) (pool s) (workers s) (status s) (link_cache s) (netloc s)
    (st_total_links s) (st_total_internal s) (st_total_external s)
    (st_error_task s) (st_error_link s) (stdout s) (stderr s) x (yielded s).

Definition set_yielded (x : list LinkTask.t) (s : State) : State :=
  mkState (pc s) (pool s) (workers s) (status s) (link_cache s) (netloc s)
    (st_total_links s) (st_total_internal s) (st_total_external s)
    (st_error_task s) (st_error_link s) (stdout s) (stderr s) (added s) x.

(** [pool.add_task(task)] *)
Definition pool_add_task (task : LinkTask.t) (s : State) : State :=
  set_added (added s ++ [task]) (set_pool (ThreadPool.add_task task (pool s)) s).

(** [binary_stdout_writeline(line, newline)] *)
Definition binary_stdout_writeline (line newline : string) (s : State) : State :=
  set_stdout (stdout s ++ [line +:+ newline]) s.

(** [parsed.scheme in ('http', 'https')] *)
Definition http_or_https (scheme : string) : bool :=
  String.eqb scheme "http" || String.eqb scheme "https".

(** The state of [run] when it reaches its loop: the pool holds the task
    that starts at the root, the workers are started, the root is in the
    link cache and counted as one internal link. *)
Definition initial `{UrlLib} (a : Args.t) : State :=
  let pool := ThreadPool.__init__ (Args.threads a) in
  let task :=
    LinkTask.__init__ (Args.url a) true (Args.timeout a) (Args.allow_redirects a) in
  let pool := ThreadPool.add_task task pool in
  {| pc := AtPoll;
     pool := pool;
     workers := ThreadPool.start pool;
     status := 0;
     link_cache := {[Args.url a]};
     netloc := ParseResult.netloc (urlparse (Args.url a));
     st_total_links := 1;
     st_total_internal := 1;
     st_total_external := 0;
     st_error_task := 0;
     st_error_link := 0;
     stdout := [];
     stderr := [];
     added := [task];
     yielded := [] |}.

(** The body of [for link in task.links]. *)
Definition visit `{UrlLib} (a : Args.t) (link : string) (s : State) : State :=
  (* ignore client-side fragment *)
  let link := urldefrag link in
  if decide (link ∈ link_cache s) then s
  else
    let s := set_link_cache ({[link]} ∪ link_cache s) s in
    let parsed := urlparse link in
    (* accept http/s protocols *)
    if negb (http_or_https (ParseResult.scheme parsed)) then s
    else
      (* internal or external link?  [None] is [continue] *)
      let branch : option (State * bool) :=
        if String.eqb (ParseResult.netloc parsed) (netloc s) then
          if Policy_eqb (Args.internal a) ignore then None
          else Some (set_st_total_internal (st_total_internal s + 1) s,
                     Policy_eqb (Args.internal a) follow)
        else
          if Policy_eqb (Args.external a) ignore then None
          else Some (set_st_total_external (st_total_external s + 1) s,
                     Policy_eqb (Args.external a) follow) in
      match branch with
      | None => s
      | Some (s, get_links) =>
          let link_task :=
            LinkTask.__init__ link get_links (Args.timeout a)
                              (Args.allow_redirects a) in
          let s := pool_add_task link_task s in
          set_st_total_links (st_total_links s + 1) s
      end.

(** The loop body up to the loop over the links, for the task that
    [poll_completed_tasks] just yielded. *)
Definition report (a : Args.t) (task : LinkTask.t) (s : State) : State :=
  let s := set_yielded (yielded s ++ [task]) s in
  match LinkTask.exception task with
  | Some exc_obj =>
      (* error in request *)
      let s := set_status 1 s in
      (* provide a concise error message for timeouts (common) *)
      let line :=
        if isinstance_Timeout exc_obj
        then LinkTask.link task +:+ " - timeout."
        else LinkTask.link task +:+ " - " +:+ exc_str exc_obj +:+ "." in
      let s := set_stderr (stderr s ++ [errln line]) s in
      let s := set_st_error_task (st_error_task s + 1) s in
      set_pc (InBody []) s
  | None =>
      match LinkTask.status task with
      | None =>
          (* 400 <= None *)
          set_pc (Uncaught (OtherError "TypeError" "unorderable types")) s
      | Some status =>
          let client_or_server_error := (400 <=? status) && (status <? 600) in
          let s :=
            if client_or_server_error || Args.print_all a
            then binary_stdout_writeline
                   (pretty status +:+ ": " +:+ LinkTask.link task)
                   (Args.newline a) s
            else s in
          let s :=
            if client_or_server_error
            then set_st_error_link (st_error_link s + 1) s
            else s in
          set_pc (InBody (LinkTask.links task)) s
      end
  end.

(** What [run] does after the loop. *)
Definition finish (a : Args.t) (s : State) : State :=
  let s :=
    if negb (Args.quiet a)
    then set_stderr
           (stderr s ++ [print_checked (st_total_links s);
                         print_scopes (st_total_internal s) (st_total_external s);
                         print_errors (st_error_task s) (st_error_link s)]) s
    else s in
  set_pc (Exited (status s)) s.

(** One step of the main thread.  [None]: the thread cannot move, it waits
    for a completed task or for the workers to mark their tasks done. *)
Definition main_step `{UrlLib} (a : Args.t) (s : State) : option State :=
  match pc s with
  | AtPoll =>
      if 0 <? ThreadPool.pending_tasks (pool s) then
        match ThreadPool.wait_for_task (pool s) with
        | Some (task, pool') => Some (report a task (set_pool pool' s))
        | None => None
        end
      else Some (set_pc AtJoin s)
  | InBody (link :: rest) => Some (set_pc (InBody rest) (visit a link s))
  | InBody [] => Some (set_pc AtPoll (set_pool (ThreadPool.resume (pool s)) s))
  | AtJoin =>
      if Queue.joinable (ThreadPool.todo (pool s)) then Some (finish a s)
      else None
  | Exited _ => None
  | Uncaught _ => None
  end.

(** The threads of the process. *)
Inductive Thread : Type :=
| MainThread
| WorkerThread (i : nat).

(** One step of worker [i] on the shared queues. *)
Definition worker_step `{UrlLib, Requests} (i : nat) (s : State) : option State :=
  w ← workers s !! i;
  '(w', todo', done') ←
    Worker.step w (ThreadPool.todo (pool s)) (ThreadPool.done (pool s));
  Some (set_workers (<[i := w']> (workers s))
          (set_pool (ThreadPool.with_queues todo' done' (pool s)) s)).

(** One step of the process: the thread the scheduler picked moves. *)
Definition step `{UrlLib, Requests} (a : Args.t) (th : Thread) (s : State) :
    option State :=
  match th with
  | MainThread => main_step a s
  | WorkerThread i => worker_step i s
  end.

(** A schedule is the list of the threads picked, in order. *)
Fixpoint exec `{UrlLib, Requests} (a : Args.t) (schedule : list Thread)
    (s : State) : option State :=
  match schedule with
  | [] => Some s
  | th :: schedule' => s' ← step a th s; exec a schedule' s'
  end.

(** The command line options [main] reads. *)
Module Options.
Record t : Type := mk {
  url : string;
  external : Policy;
  internal : Policy;
  newline : NewlineMode;
  no_redirects : bool;
  print_all : bool;
  quiet : bool;
  threads : Z;
  timeout : Z
}.
End Options.

(** [main]: either the error message and the exit status of an early exit,
    or the arguments it calls [run] with. *)
Definition main (linesep : string) (options : Options.t) :
    (ErrLine * Z) + Args.t :=
  (* validate threads number *)
  if Options.threads options <? 1
  then inl (errln "the number of threads must be positive.", 1)
  else
    (* 0 means no timeout *)
    let timeout :=
      if 0 <? Options.timeout options then Some (Options.timeout options)
      else None in
    let allow_redirects := negb (Options.no_redirects options) in
    inr (Args.mk (Options.url options) allow_redirects
           (Options.internal options) (Options.external options)
           (BYTES_NEWLINES linesep (Options.newline options))
           (Options.print_all options) (Options.quiet options)
           (Options.threads options) timeout).

(** [run], under a schedule: the state the process is in after the threads
    of the schedule each made their step, if they all could. *)
Definition run `{UrlLib, Requests} (a : Args.t) (schedule : list Thread) :
    option State :=
  exec a schedule (initial a).

(** ** Runs, and what is observed of a state *)

Definition step_rel `{UrlLib, Requests} (a : Args.t) (s s' : State) : Prop :=
  ∃ th, step a th s = Some s'.

(** The states that some schedule reaches. *)
Definition reachable `{UrlLib, Requests} (a : Args.t) (s : State) : Prop :=
  rtc (step_rel a) (initial a) s.

Definition todo_items (s : State) : list LinkTask.t :=
  Queue.items (ThreadPool.todo (pool s)).

Definition done_items (s : State) : list LinkTask.t :=
  Queue.items (ThreadPool.done (pool s)).

(** The task a worker took from [todo] and has not run yet. *)
Definition held (w : Worker.t) : list LinkTask.t :=
  match w with Worker.AtRun task => [task] | _ => [] end.

Definition running (s : State) : list LinkTask.t := workers s ≫= held.

Definition is_acking (w : Worker.t) : nat :=
  match w with Worker.AtTaskDone => 1%nat | _ => 0%nat end.

(** The number of workers that still owe a [task_done]. *)
Definition acking (s : State) : nat := sum_list_with is_acking (workers s).

Definition in_body (p : MainPC) : Z :=
  match p with InBody _ => 1 | _ => 0 end.

Definition to_visit (p : MainPC) : list string :=
  match p with InBody rest => rest | _ => [] end.

(** The task that starts at the root. *)
Definition seed_task (a : Args.t) : LinkTask.t :=
  LinkTask.__init__ (Args.url a) true (Args.timeout a) (Args.allow_redirects a).

(** A task as the constructor leaves it, with the timeout and the redirect
    flag of the run. *)
Definition fresh (a : Args.t) (t : LinkTask.t) : Prop :=
  ∃ link parse_links,
    t = LinkTask.__init__ link parse_links (Args.timeout a)
                          (Args.allow_redirects a).

(** A task-level error: the task came back with its exception slot set. *)
Definition failed (t : LinkTask.t) : Prop := is_Some (LinkTask.exception t).

(** A link-level error: no exception, and a status in 400..599. *)
Definition link_error (t : LinkTask.t) : bool :=
  match LinkTask.exception t, LinkTask.status t with
  | None, Some st => LinkTask.client_or_server_error st
  | _, _ => false
  end.

(** The lines a completed task adds to standard output. *)
Definition report_lines (a : Args.t) (t : LinkTask.t) : list string :=
  match LinkTask.exception t, LinkTask.status t with
  | None, Some st =>
      if LinkTask.client_or_server_error st || Args.print_all a
      then [(pretty st +:+ ": " +:+ LinkTask.link t) +:+ Args.newline a]
      else []
  | _, _ => []
  end.

(** The lines a completed task adds to standard error. *)
Definition error_lines (t : LinkTask.t) : list ErrLine :=
  match LinkTask.exception t with
  | Some e =>
      [errln (if isinstance_Timeout e
              then LinkTask.link t +:+ " - timeout."
              else LinkTask.link t +:+ " - " +:+ exc_str e +:+ ".")]
  | None => []
  end.

(** The final statistics, once printed. *)
Definition summary (a : Args.t) (s : State) : list ErrLine :=
  match pc s with
  | Exited _ =>
      if Args.quiet a then []
      else [print_checked (st_total_links s);
            print_scopes (st_total_internal s) (st_total_external s);
            print_errors (st_error_task s) (st_error_link s)]
  | _ => []
  end.

(** The test of [run] that tells internal from external links: the network
    location of the link is the network location of the root. *)
Definition is_internal `{UrlLib} (a : Args.t) (u : string) : bool :=
  String.eqb (ParseResult.netloc (urlparse u))
             (ParseResult.netloc (urlparse (Args.url a))).

(** The policy that applies to a link. *)
Definition policy_of `{UrlLib} (a : Args.t) (u : string) : Policy :=
  if is_internal a u then Args.internal a else Args.external a.

(** What holds of every task created for a discovered link. *)
Definition accepted `{UrlLib} (a : Args.t) (t : LinkTask.t) : Prop :=
  (∃ l, LinkTask.link t = urldefrag l)
  ∧ http_or_https (ParseResult.scheme (urlparse (LinkTask.link t))) = true
  ∧ policy_of a (LinkTask.link t) ≠ ignore
  ∧ LinkTask.parse_links t = Policy_eqb (policy_of a (LinkTask.link t)) follow.

(** *** Invariants of the reachable states *)

(** The counters of the pool against the contents of the queues. *)
Definition Inv_count `{UrlLib, Requests} (a : Args.t) (s : State) : Prop :=
  ThreadPool.pending_tasks (pool s)
  = Z.of_nat (length (todo_items s) + length (running s) + length (done_items s))
    + in_body (pc s)
  ∧ Queue.unfinished_tasks (ThreadPool.todo (pool s))
    = Z.of_nat (length (todo_items s) + length (running s) + acking s)
  ∧ length (workers s) = Z.to_nat (Args.threads a)
  ∧ (pc s = AtJoin ∨ (∃ c, pc s = Exited c) → ThreadPool.pending_tasks (pool s) = 0)
  ∧ (∀ c, pc s = Exited c →
       c = status s ∧ Queue.unfinished_tasks (ThreadPool.todo (pool s)) = 0).

(** Every task is created once, run once and yielded once. *)
Definition Inv_hist `{UrlLib, Requests} (a : Args.t) (s : State) : Prop :=
  (∀ t, t ∈ added s → fresh a t)
  ∧ (∀ t, t ∈ todo_items s ++ running s → t ∈ added s)
  ∧ LinkTask.run <$> added s
    ≡ₚ (LinkTask.run <$> (todo_items s ++ running s)) ++ done_items s ++ yielded s
  ∧ (∀ e, pc s ≠ Uncaught e)
  ∧ (∀ l, l ∈ to_visit (pc s) →
       ∃ t, t ∈ yielded s ∧ LinkTask.exception t = None ∧ l ∈ LinkTask.links t).

(** The link cache against the tasks created. *)
Definition Inv_cache `{UrlLib, Requests} (a : Args.t) (s : State) : Prop :=
  netloc s = ParseResult.netloc (urlparse (Args.url a))
  ∧ Args.url a ∈ link_cache s
  ∧ (∃ rest, added s = seed_task a :: rest ∧ Forall (accepted a) rest)
  ∧ NoDup (LinkTask.link <$> added s)
  ∧ (∀ t, t ∈ added s → LinkTask.link t ∈ link_cache s)
  ∧ (∀ u, u ∈ link_cache s →
       http_or_https (ParseResult.scheme (urlparse u)) = true →
       policy_of a u ≠ ignore →
       ∃ t, t ∈ added s ∧ LinkTask.link t = u).

(** The statistics and the output against the history. *)
Definition Inv_stats `{UrlLib, Requests} (a : Args.t) (s : State) : Prop :=
  st_total_links s = Z.of_nat (length (added s))
  ∧ st_total_internal s
    = Z.of_nat (length (filter (λ t, is_internal a (LinkTask.link t) = true) (added s)))
  ∧ st_total_external s
    = Z.of_nat (length (filter (λ t, is_internal a (LinkTask.link t) = false) (added s)))
  ∧ st_error_task s = Z.of_nat (length (filter failed (yielded s)))
  ∧ st_error_link s
    = Z.of_nat (length (filter (λ t, link_error t = true) (yielded s)))
  ∧ status s = (if decide (Exists failed (yielded s)) then 1 else 0)
  ∧ stdout s = yielded s ≫= report_lines a
  ∧ stderr s = (yielded s ≫= error_lines) ++ summary a s.

(** Every link of a yielded task is still to visit or went through the
    link cache. *)
Definition Inv_seen `{UrlLib, Requests} (a : Args.t) (s : State) : Prop :=
  ∀ t l, t ∈ yielded s → LinkTask.exception t = None → l ∈ LinkTask.links t →
         l ∈ to_visit (pc s) ∨ urldefrag l ∈ link_cache s.

(** *** Finite link graphs *)

(** [U] is a finite set of URLs that holds the root and, with a URL, every
    link found on its page, fragment removed. *)
Definition link_closed `{UrlLib, Requests} (a : Args.t) (U : gset string) : Prop :=
  Args.url a ∈ U
  ∧ ∀ u parse_links l,
      u ∈ U →
      l ∈ LinkTask.links
            (LinkTask.run (LinkTask.__init__ u parse_links (Args.timeout a)
                                             (Args.allow_redirects a))) →
      urldefrag l ∈ U.

Definition pc_weight (p : MainPC) : nat :=
  match p with
  | AtPoll => 2
  | InBody _ => 3
  | AtJoin => 1
  | Exited _ | Uncaught _ => 0
  end%nat.

Definition worker_weight (w : Worker.t) : nat :=
  match w with
  | Worker.AtGet => 0
  | Worker.AtRun _ => 4
  | Worker.AtTaskDone => 1
  end%nat.

(** What is left to do: every step of every thread makes the pair
    ([measure], links still to visit) smaller in the lexicographic order. *)
Definition measure (U : gset string) (s : State) : nat :=
  (6 * size (U ∖ link_cache s) + 5 * length (todo_items s)
   + sum_list_with worker_weight (workers s) + 2 * length (done_items s)
   + pc_weight (pc s))%nat.

(** ** Schedulers and concrete sites *)

(** The threads of a state: the main thread, then the workers. *)
Definition threads_of (s : State) : list Thread :=
  MainThread :: (WorkerThread <$> seq 0 (length (workers s))).

(** The first thread of the list that can move, and where it gets to. *)
Fixpoint first_enabled `{UrlLib, Requests} (a : Args.t) (ths : list Thread)
    (s : State) : option (Thread * State) :=
  match ths with
  | [] => None
  | th :: ths' =>
      match step a th s with
      | Some s' => Some (th, s')
      | None => first_enabled a ths' s
      end
  end.

(** A scheduler that always picks the first thread that can move; it stops
    when none can, or after [fuel] steps. *)
Fixpoint drive `{UrlLib, Requests} (a : Args.t) (fuel : nat) (s : State) :
    list Thread :=
  match fuel with
  | O => []
  | S fuel' =>
      match first_enabled a (threads_of s) s with
      | Some (th, s') => th :: drive a fuel' s'
      | None => []
      end
  end.

(** The state the process ends in under that scheduler. *)
Definition outcome `{UrlLib, Requests} (a : Args.t) (fuel : nat) : State :=
  default (initial a) (run a (drive a fuel (initial a))).

Definition html (tags : list Tag) : Response :=
  mkResponse 200 (Some "text/html; charset=utf-8") (inr tags).

Definition a_href (target : string) : Tag := mkTag "a" {["href" := target]}.

Definition img_src (target : string) : Tag := mkTag "img" {["src" := target]}.

Definition line_feed : string := String "010" EmptyString.

(** A small site: the root links to a page, to another host that times out
    and to an image; the page links back to the root, twice, and to a page
    that is missing. *)
Definition example_site : Requests := {|
  requests_get u _ _ :=
    if String.eqb u "http://example.test/" then
      inr (html [a_href "/about"; a_href "http://other.test/"; img_src "/logo.png"])
    else if String.eqb u "http://example.test/about" then
      inr (html [a_href "/"; a_href "/#top"; a_href "/missing"; a_href "/about#a"])
    else if String.eqb u "http://example.test/missing" then
      inr (mkResponse 404 (Some "text/html") (inr [a_href "/nowhere"]))
    else if String.eqb u "http://other.test/" then
      inl (Timeout "Read timed out.")
    else
      inr (mkResponse 200 (Some "image/png") (inr []))
|}.

Definition example_args : Args.t :=
  Args.mk "http://example.test/" true follow check line_feed false false 2
          (Some 10).

Definition example_graph : gset string :=
  {[ "http://example.test/"; "http://example.test/about";
     "http://example.test/missing"; "http://example.test/logo.png";
     "http://other.test/" ]}.

(** A root that is given with a fragment, on a page that links to itself. *)
Definition fragment_site : Requests := {|
  requests_get u _ _ :=
    if PyStr.startswith "http://example.test/x" u then inr (html [a_href "/x"])
    else inr (mkResponse 404 None (inr []))
|}.

Definition fragment_args : Args.t :=
  Args.mk "http://example.test/x#top" true check check line_feed false false 1
          (Some 10).

(** A root that links to another port of its own host and to a file on an
    FTP server. *)
Definition port_site : Requests := {|
  requests_get u _ _ :=
    if String.eqb u "http://example.test/" then
      inr (html [a_href "http://example.test:8080/admin";
                 a_href "ftp://other.test/file"])
    else inr (html [])
|}.

Definition port_args : Args.t :=
  Args.mk "http://example.test/" true ignore follow line_feed false false 1
          (Some 10).

(** A root that is missing. *)
Definition missing_site : Requests := {|
  requests_get u _ _ := inr (mkResponse 404 (Some "text/html") (inr [a_href "/"]))
|}.

Definition missing_args : Args.t :=
  Args.mk "http://example.test/" true check check line_feed false false 1 None.

Definition example_options (timeout : Z) : Options.t :=
  Options.mk "http://example.test/" check check unix false false false 1 timeout.

(** The host of a URL: the host subcomponent of its network location. *)
Definition host_of (u : string) : string :=
  urllib_parse.hostname (urllib_parse.urlparse u EmptyString).

(** A character that may stand in a network location: none of the
    delimiters that end it, and none of the bytes the parser removes. *)
Definition authority_char (c : ascii) : bool :=
  negb (Ascii.eqb c "/" || Ascii.eqb c "?" || Ascii.eqb c "#"
        || urllib_parse.unsafe_url_byte c).

(** What [urlsplit] accepts as a scheme in front of a colon. *)
Definition scheme_like (s : string) : bool :=
  negb (PyStr.is_empty s)
  && from_option PyStr.is_alpha false (PyStr.first_char s)
  && PyStr.forall_chars urllib_parse.scheme_char s.

(** A path: empty, or starting with a slash. *)
Definition path_like (s : string) : bool :=
  match PyStr.first_char s with
  | None => true
  | Some c => Ascii.eqb c "/"
  end.

(** The runs of the concrete sites under the scheduler [drive]. *)
Definition example_outcome : State := @outcome CPython example_site example_args 100.

Definition fragment_outcome : State := @outcome CPython fragment_site fragment_args 20.

Definition port_outcome : State := @outcome CPython port_site port_args 20.

Definition missing_outcome : State := @outcome CPython missing_site missing_args 20.


(** ** What a crawl checks *)

(** The tasks of a crawl, whatever the schedule: the task for the root, and
    for every link on the page of a task of the crawl that ran without an
    exception, the task for the link without its fragment, with link
    extraction on when the policy of the link is follow; no task for a link
    that is the root as it was given, whose scheme is neither http nor
    https, or whose policy is ignore. *)
Inductive crawled `{UrlLib, Requests} (a : Args.t) : LinkTask.t → Prop :=
| crawled_root : crawled a (seed_task a)
| crawled_link (t : LinkTask.t) (l : string) :
    crawled a t →
    LinkTask.exception (LinkTask.run t) = None →
    l ∈ LinkTask.links (LinkTask.run t) →
    urldefrag l ≠ Args.url a →
    http_or_https (ParseResult.scheme (urlparse (urldefrag l))) = true →
    policy_of a (urldefrag l) ≠ ignore →
    crawled a
      (LinkTask.__init__ (urldefrag l)
         (Policy_eqb (policy_of a (urldefrag l)) follow)
         (Args.timeout a) (Args.allow_redirects a)).

(** The options that [make_parser().parse_args] returns when the command
    line is just the url: the [default] of every optional argument, and
    [False] for the [store_true] flags. *)
Definition default_options (url : string) : Options.t :=
  Options.mk url check check system false false false 1 10.

(** Another schedule for the small site: it starts like [drive], then lets
    the second worker finish its task before the first, and goes on like
    [drive]. *)
Definition example_swap_prefix : list Thread :=
  [WorkerThread 0; WorkerThread 0; MainThread; MainThread; MainThread;
   MainThread; MainThread; WorkerThread 0; WorkerThread 0; WorkerThread 1;
   WorkerThread 1; WorkerThread 0]%nat.

Definition example_swap_schedule : list Thread :=
  example_swap_prefix
  ++ @drive CPython example_site example_args 100
       (default (@initial CPython example_args)
          (@run CPython example_site example_args example_swap_prefix)).

Definition example_outcome_swapped : State :=
  default (@initial CPython example_args)
    (@run CPython example_site example_args example_swap_schedule).

(** The small site crawled with the default options. *)
Definition default_example_args : Args.t :=
  Args.mk "http://example.test/" true check check line_feed false false 1
          (Some 10).

Definition default_example_outcome : State :=
  @outcome CPython example_site default_example_args 100.

(** Arguments with no worker thread, which [main] never passes on. *)
Definition no_worker_args : Args.t :=
  Args.mk "http://example.test/" true check check line_feed false false 0
          (Some 10).

(** A root that answers 200 with an HTML content type and a body that
    cannot be read, crawled with all statuses printed. *)
Definition broken_site : Requests := {|
  requests_get u _ _ :=
    inr (mkResponse 200 (Some "text/html")
           (inl (OtherError "ChunkedEncodingError" "Connection broken")))
|}.

Definition broken_args : Args.t :=
  Args.mk "http://example.test/" true check check line_feed true false 1 None.

Definition broken_outcome : State := @outcome CPython broken_site broken_args 20.

Definition no_worker_outcome : State :=
  @outcome CPython example_site no_worker_args 20.

(** * Properties *)

(** ** The URL library model on examples *)

Example urlparse_ex :
  urllib_parse.urlparse "HTTP://user@Example.test:80/a/b;p?q=1#frag" "" =
  ParseResult.mk "http" "user@Example.test:80" "/a/b" "p" "q=1" "frag".
Proof. reflexivity. Qed.
Example urldefrag_ex1 : urllib_parse.urldefrag "http://example.test/x#a" = "http://example.test/x".
Proof. reflexivity. Qed.
Example urldefrag_ex2 : urllib_parse.urldefrag "http://example.test/x" = "http://example.test/x".
Proof. reflexivity. Qed.
Example urljoin_ex1 : urllib_parse.urljoin "http://example.test/" "/about" = "http://example.test/about".
Proof. reflexivity. Qed.
Example urljoin_ex2 : urllib_parse.urljoin "http://example.test/a/b/c.html" "../d/./e.png#z" = "http://example.test/a/d/e.png#z".
Proof. reflexivity. Qed.
Example urljoin_ex3 : urllib_parse.urljoin "http://example.test/a" "http://other.test/" = "http://other.test/".
Proof. reflexivity. Qed.
Example urljoin_ex4 : urllib_parse.urljoin "http://example.test/a" "mailto:me@example.test" = "mailto:me@example.test".
Proof. reflexivity. Qed.
Example hostname_ex : urllib_parse.hostname (urllib_parse.urlparse "http://user@Example.test:80/a" "") = "example.test".
Proof. reflexivity. Qed.


(** ** Lists of workers *)

Lemma held_insert (ws : list Worker.t) (i : nat) (w w' : Worker.t) :
  ws !! i = Some w →
  (<[i:=w']> ws ≫= held) ++ held w ≡ₚ (ws ≫= held) ++ held w'.
Proof.
  revert i. induction ws as [|x ws IH]; intros [|i] Hi; simplify_eq/=.
  - rewrite <- !(assoc_L (++)). rewrite (comm (++) (held w')).
    rewrite !(assoc_L (++)). apply Permutation_app_tail, (comm (++)).
  - rewrite <- !(assoc_L (++)). by rewrite (IH i Hi).
Qed.

Lemma sum_list_with_insert (f : Worker.t → nat) (ws : list Worker.t)
    (i : nat) (w w' : Worker.t) :
  ws !! i = Some w →
  (sum_list_with f (<[i:=w']> ws) + f w = sum_list_with f ws + f w')%nat.
Proof.
  revert i. induction ws as [|x ws IH]; intros [|i] Hi; simplify_eq/=.
  - lia.
  - specialize (IH i Hi). lia.
Qed.

(** ** Tasks *)

Section Task.
Context `{!UrlLib, !Requests}.

Lemma collect_unfold (attr : string) (tag : Tag) (self : LinkTask.t) :
  LinkTask.collect attr tag self
  = match getitem tag attr with
    | inl e => (self, inl e)
    | inr target =>
        match urljoin (LinkTask.link self) target with
        | inl e => (self, inl e)
        | inr l =>
            (LinkTask.mk (LinkTask.link self) (LinkTask.parse_links self)
               (LinkTask.timeout self) (LinkTask.allow_redirects self)
               (LinkTask.links self ++ [l]) (LinkTask.status self)
               (LinkTask.exception self), inr tt)
        end
    end.
Proof.
  unfold LinkTask.collect, mbind, LinkTask.M_bind, LinkTask.bind,
    LinkTask.read, LinkTask.lift, LinkTask.links_append.
  destruct (getitem tag attr); [done|].
  by destruct (urljoin (LinkTask.link self) s).
Qed.

Lemma for_each_unfold {A} (body : A → LinkTask.M unit) (x : A) (l : list A)
    (self : LinkTask.t) :
  LinkTask.for_each body (x :: l) self
  = match body x self with
    | (self', inr _) => LinkTask.for_each body l self'
    | (self', inl e) => (self', inl e)
    end.
Proof. reflexivity. Qed.

(** The loop over the tags only appends to [self.links]: one resolved
    link per tag, in order, up to the tag at which something is raised. *)
Lemma for_each_collect (attr : string) (tags : list Tag)
    (self self' : LinkTask.t) (r : result unit) :
  LinkTask.for_each (LinkTask.collect attr) tags self = (self', r) →
  ∃ more,
    self' = LinkTask.mk (LinkTask.link self) (LinkTask.parse_links self)
              (LinkTask.timeout self) (LinkTask.allow_redirects self)
              (LinkTask.links self ++ more) (LinkTask.status self)
              (LinkTask.exception self)
    ∧ (∀ u, r = inr u → Forall2 (resolved (LinkTask.link self) attr) tags more).
Proof.
  revert self. induction tags as [|tag tags IH]; intros self Hrun.
  - simpl in Hrun. injection Hrun as <- <-. exists [].
    destruct self; simpl. rewrite app_nil_r. split; [done|]. by constructor.
  - rewrite for_each_unfold, collect_unfold in Hrun.
    unfold getitem in Hrun.
    destruct (tag_attrs tag !! attr) as [target|] eqn:Hattr.
    2:{ injection Hrun as <- <-. exists []. destruct self; simpl.
        rewrite app_nil_r. split; [done|]. intros u; discriminate. }
    destruct (urljoin (LinkTask.link self) target) as [e|l] eqn:Hjoin.
    { injection Hrun as <- <-. exists []. destruct self; simpl.
      rewrite app_nil_r. split; [done|]. intros u; discriminate. }
    apply IH in Hrun as (more & -> & Hall). simpl in *.
    exists (l :: more). rewrite <- (assoc_L (++)). split; [done|].
    intros u ->. constructor; [by exists target|]. by eapply Hall.
Qed.

(** [run] on a task as the constructor leaves it, case by case. *)
Lemma run_fresh (u : string) (p : bool) (tmo : option Z) (ar : bool) :
  match requests_get u tmo ar with
  | inl e =>
      LinkTask.run (LinkTask.__init__ u p tmo ar)
      = LinkTask.mk u p tmo ar [] None (Some e)
  | inr response =>
      let sc := status_code response in
      if negb p || LinkTask.client_or_server_error sc
         || negb (LinkTask.is_html
                    (PyStr.strip PyStr.is_whitespace
                       (default "" (content_type response))))
      then LinkTask.run (LinkTask.__init__ u p tmo ar)
           = LinkTask.mk u p tmo ar [] (Some sc) None
      else
        match content response with
        | inl e =>
            LinkTask.run (LinkTask.__init__ u p tmo ar)
            = LinkTask.mk u p tmo ar [] (Some sc) (Some e)
        | inr tags =>
            ∃ ls exn,
              LinkTask.run (LinkTask.__init__ u p tmo ar)
              = LinkTask.mk u p tmo ar ls (Some sc) exn
              ∧ (exn = None →
                 ∃ hrefs srcs,
                   ls = hrefs ++ srcs
                   ∧ Forall2 (resolved u "href")
                       (find_all "a" "href" (BeautifulSoup tags)) hrefs
                   ∧ Forall2 (resolved u "src")
                       (find_all "img" "src" (BeautifulSoup tags)) srcs)
        end
  end.
Proof.
  unfold LinkTask.run, LinkTask.run_body, LinkTask.__init__.
  unfold mbind, LinkTask.M_bind, LinkTask.bind, LinkTask.read, LinkTask.lift,
    LinkTask.set_status, LinkTask.ret. simpl.
  destruct (requests_get u tmo ar) as [e|response]; [done|]. simpl.
  destruct p; simpl; [|done].
  destruct (LinkTask.client_or_server_error (status_code response)); simpl; [done|].
  destruct (LinkTask.is_html _); simpl; [|done].
  destruct (content response) as [e|tags]; [done|].
  destruct (LinkTask.for_each (LinkTask.collect "href") _ _) as [self1 r1] eqn:H1.
  apply for_each_collect in H1 as (hrefs & -> & Hh). simpl in *.
  destruct r1 as [e|[]].
  { eexists _, _. split; [reflexivity|]. discriminate. }
  destruct (LinkTask.for_each (LinkTask.collect "src") _ _) as [self2 r2] eqn:H2.
  apply for_each_collect in H2 as (srcs & -> & Hs). simpl in *.
  destruct r2 as [e|[]].
  { eexists _, _. split; [reflexivity|]. discriminate. }
  eexists _, _. split; [reflexivity|]. intros _.
  exists hrefs, srcs. split; [done|]. split; [by eapply Hh | by eapply Hs].
Qed.

(** The fields given to the constructor are never written. *)
Lemma run_fresh_inputs (u : string) (p : bool) (tmo : option Z) (ar : bool) :
  let t := LinkTask.run (LinkTask.__init__ u p tmo ar) in
  LinkTask.link t = u ∧ LinkTask.parse_links t = p
  ∧ LinkTask.timeout t = tmo ∧ LinkTask.allow_redirects t = ar.
Proof.
  pose proof (run_fresh u p tmo ar) as Hrun. simpl.
  destruct (requests_get u tmo ar) as [e|response]; [by rewrite Hrun|].
  simpl in Hrun. destruct (_ || _); [by rewrite Hrun|].
  destruct (content response) as [e|tags]; [by rewrite Hrun|].
  by destruct Hrun as (ls & exn & -> & _).
Qed.

(** A task that was run carries an exception or a status. *)
Lemma run_fresh_outcome (u : string) (p : bool) (tmo : option Z) (ar : bool) :
  let t := LinkTask.run (LinkTask.__init__ u p tmo ar) in
  is_Some (LinkTask.exception t) ∨ is_Some (LinkTask.status t).
Proof.
  pose proof (run_fresh u p tmo ar) as Hrun. simpl.
  destruct (requests_get u tmo ar) as [e|response]; [rewrite Hrun; by left|].
  simpl in Hrun. destruct (_ || _); [rewrite Hrun; by right|].
  destruct (content response) as [e|tags]; [rewrite Hrun; by right|].
  destruct Hrun as (ls & exn & -> & _). by right.
Qed.

End Task.

(** ** The steps of the process, case by case *)

Section Steps.
Context `{!UrlLib, !Requests} (a : Args.t).

(** The three ways through the body of the loop over the links. *)
Lemma visit_cases (l : string) (s : State) :
  let u := urldefrag l in
  (u ∈ link_cache s ∧ visit a l s = s)
  ∨ ((u ∉ link_cache s)
     ∧ (http_or_https (ParseResult.scheme (urlparse u)) = false
        ∨ (if String.eqb (ParseResult.netloc (urlparse u)) (netloc s)
           then Args.internal a else Args.external a) = ignore)
     ∧ visit a l s = set_link_cache ({[u]} ∪ link_cache s) s)
  ∨ ((u ∉ link_cache s)
     ∧ http_or_https (ParseResult.scheme (urlparse u)) = true
     ∧ ∃ (b : bool) (p : Policy),
         String.eqb (ParseResult.netloc (urlparse u)) (netloc s) = b
         ∧ p = (if b then Args.internal a else Args.external a)
         ∧ p ≠ ignore
         ∧ visit a l s
           = mkState (pc s)
               (ThreadPool.add_task
                  (LinkTask.__init__ u (Policy_eqb p follow) (Args.timeout a)
                                     (Args.allow_redirects a)) (pool s))
               (workers s) (status s) ({[u]} ∪ link_cache s) (netloc s)
               (st_total_links s + 1)
               (st_total_internal s + (if b then 1 else 0))
               (st_total_external s + (if b then 0 else 1))
               (st_error_task s) (st_error_link s) (stdout s) (stderr s)
               (added s
                ++ [LinkTask.__init__ u (Policy_eqb p follow) (Args.timeout a)
                                      (Args.allow_redirects a)])
               (yielded s)).
Proof.
  intros u. unfold visit. fold u.
  destruct (decide (u ∈ link_cache s)) as [Hin|Hin]; [by left|]. right.
  destruct (http_or_https _) eqn:Hs; simpl; [|left; eauto].
  destruct (String.eqb _ _) eqn:Hn.
  - destruct (Args.internal a) eqn:Hp; simpl.
    + right. split; [done|]. split; [done|]. exists true, check.
      rewrite Z.add_0_r. done.
    + left. eauto.
    + right. split; [done|]. split; [done|]. exists true, follow.
      rewrite Z.add_0_r. done.
  - destruct (Args.external a) eqn:Hp; simpl.
    + right. split; [done|]. split; [done|]. exists false, check.
      rewrite Z.add_0_r. done.
    + left. eauto.
    + right. split; [done|]. split; [done|]. exists false, follow.
      rewrite Z.add_0_r. done.
Qed.

(** The three ways through the loop body before the links. *)
Lemma report_cases (task : LinkTask.t) (s : State) :
  (∃ e, LinkTask.exception task = Some e
        ∧ report a task s
          = mkState (InBody []) (pool s) (workers s) 1 (link_cache s) (netloc s)
              (st_total_links s) (st_total_internal s) (st_total_external s)
              (st_error_task s + 1) (st_error_link s) (stdout s)
              (stderr s ++ error_lines task) (added s) (yielded s ++ [task]))
  ∨ (LinkTask.exception task = None ∧ LinkTask.status task = None
     ∧ report a task s
       = set_pc (Uncaught (OtherError "TypeError" "unorderable types"))
           (set_yielded (yielded s ++ [task]) s))
  ∨ (∃ st, LinkTask.exception task = None ∧ LinkTask.status task = Some st
        ∧ report a task s
          = mkState (InBody (LinkTask.links task)) (pool s) (workers s)
              (status s) (link_cache s) (netloc s)
              (st_total_links s) (st_total_internal s) (st_total_external s)
              (st_error_task s)
              (st_error_link s + (if link_error task then 1 else 0))
              (stdout s ++ report_lines a task)
              (stderr s) (added s) (yielded s ++ [task])).
Proof.
  unfold report, error_lines, report_lines, link_error.
  destruct (LinkTask.exception task) as [e|] eqn:He.
  { left. by exists e. }
  right. destruct (LinkTask.status task) as [st|] eqn:Hst.
  2:{ left. done. }
  right. exists st. split; [done|]. split; [done|].
  unfold LinkTask.client_or_server_error.
  destruct ((400 <=? st) && (st <? 600)); simpl.
  - done.
  - unfold binary_stdout_writeline.
    destruct (Args.print_all a); simpl; by rewrite ?Z.add_0_r, ?app_nil_r.
Qed.

(** Every step is one of these eight. *)
Lemma step_elim (P : State → State → Prop) :
  (∀ s, pc s = AtPoll → ThreadPool.pending_tasks (pool s) ≤ 0 →
        P s (set_pc AtJoin s)) →
  (∀ s task rest, pc s = AtPoll → 0 < ThreadPool.pending_tasks (pool s) →
        done_items s = task :: rest →
        P s (report a task
               (set_pool
                  (ThreadPool.mk (ThreadPool.threads (pool s))
                     (ThreadPool.todo (pool s))
                     (Queue.mk rest
                        (Queue.unfinished_tasks (ThreadPool.done (pool s))))
                     (ThreadPool.pending_tasks (pool s))) s))) →
  (∀ s link rest, pc s = InBody (link :: rest) →
        P s (set_pc (InBody rest) (visit a link s))) →
  (∀ s, pc s = InBody [] →
        P s (set_pc AtPoll (set_pool (ThreadPool.resume (pool s)) s))) →
  (∀ s, pc s = AtJoin →
        Queue.unfinished_tasks (ThreadPool.todo (pool s)) = 0 →
        P s (finish a s)) →
  (∀ s i task rest, workers s !! i = Some Worker.AtGet →
        todo_items s = task :: rest →
        P s (set_workers (<[i:=Worker.AtRun task]> (workers s))
               (set_pool
                  (ThreadPool.with_queues
                     (Queue.mk rest
                        (Queue.unfinished_tasks (ThreadPool.todo (pool s))))
                     (ThreadPool.done (pool s)) (pool s)) s))) →
  (∀ s i task, workers s !! i = Some (Worker.AtRun task) →
        P s (set_workers (<[i:=Worker.AtTaskDone]> (workers s))
               (set_pool
                  (ThreadPool.with_queues (ThreadPool.todo (pool s))
                     (Queue.put (LinkTask.run task) (ThreadPool.done (pool s)))
                     (pool s)) s))) →
  (∀ s i, workers s !! i = Some Worker.AtTaskDone →
        P s (set_workers (<[i:=Worker.AtGet]> (workers s))
               (set_pool
                  (ThreadPool.with_queues
                     (Queue.task_done (ThreadPool.todo (pool s)))
                     (ThreadPool.done (pool s)) (pool s)) s))) →
  ∀ th s s', step a th s = Some s' → P s s'.
Proof.
  intros Hjoin Hget Hvisit Hresume Hfinish Hwget Hwrun Hwdone th s s' Hstep.
  destruct th as [|i]; simpl in Hstep.
  - unfold main_step in Hstep. destruct (pc s) as [|[|link rest]| | |] eqn:Hpc.
    + destruct (0 <? _) eqn:Hpending.
      * apply Z.ltb_lt in Hpending.
        unfold ThreadPool.wait_for_task, Queue.get in Hstep.
        destruct (Queue.items (ThreadPool.done (pool s))) as [|task rest] eqn:Hd;
          [done|].
        injection Hstep as <-. by apply Hget.
      * apply Z.ltb_ge in Hpending. injection Hstep as <-. by apply Hjoin.
    + injection Hstep as <-. by apply Hresume.
    + injection Hstep as <-. by apply Hvisit.
    + unfold Queue.joinable in Hstep. destruct (_ =? 0) eqn:Hj; [|done].
      apply Z.eqb_eq in Hj. injection Hstep as <-. by apply Hfinish.
    + done.
    + done.
  - unfold worker_step in Hstep.
    destruct (workers s !! i) as [w|] eqn:Hw; [|done]. simpl in Hstep.
    destruct w as [|task|]; simpl in Hstep.
    + unfold Queue.get in Hstep.
      destruct (Queue.items (ThreadPool.todo (pool s))) as [|task rest] eqn:Ht;
        [done|].
      simpl in Hstep. injection Hstep as <-. by apply Hwget.
    + injection Hstep as <-. by apply Hwrun.
    + injection Hstep as <-. by apply Hwdone.
Qed.

(** Invariants are proved by induction on the run. *)
Lemma reachable_ind (P : State → Prop) :
  P (initial a) →
  (∀ s th s', reachable a s → P s → step a th s = Some s' → P s') →
  ∀ s, reachable a s → P s.
Proof.
  intros Hinit Hstep s Hreach. unfold reachable in Hreach.
  eapply (rtc_ind_r (λ s, P s) (initial a)); [exact Hinit| |exact Hreach].
  intros y z Hy [th Hth] IH. by eapply (Hstep y th z).
Qed.

Lemma reachable_step (s s' : State) (th : Thread) :
  reachable a s → step a th s = Some s' → reachable a s'.
Proof. intros Hs Hstep. eapply rtc_r; [exact Hs|]. by exists th. Qed.

End Steps.

(** ** Invariants *)

Section Invariants.
Context `{!UrlLib, !Requests} (a : Args.t).

Lemma held_lookup (ws : list Worker.t) (i : nat) (task : LinkTask.t) :
  ws !! i = Some (Worker.AtRun task) → task ∈ ws ≫= held.
Proof.
  intros Hi. apply list_elem_of_bind. exists (Worker.AtRun task).
  split; [simpl; by left|]. by eapply list_elem_of_lookup_2.
Qed.

Lemma held_replicate (n : nat) : replicate n Worker.AtGet ≫= held = [].
Proof. induction n as [|n IH]; [done|]. simpl. done. Qed.

Lemma running_initial : running (initial a) = [].
Proof. unfold running, initial, ThreadPool.start. simpl. apply held_replicate. Qed.

Lemma Inv_hist_initial : Inv_hist a (initial a).
Proof.
  unfold Inv_hist. rewrite running_initial.
  unfold initial, todo_items, done_items; simpl.
  split_and!.
  - intros t ->%list_elem_of_singleton. by eexists _, _.
  - done.
  - done.
  - done.
  - intros l Hl. by apply elem_of_nil in Hl.
Qed.

Lemma Inv_hist_step (s s' : State) (th : Thread) :
  Inv_hist a s → step a th s = Some s' → Inv_hist a s'.
Proof.
  intros Hinv Hstep. revert Hinv. pattern s, s'. revert Hstep.
  apply step_elim; clear s s' th.
  - (* the loop ends *)
    intros s Hpc Hpending (Hfresh & Hqueued & Hperm & Hpc' & Hvisit).
    unfold Inv_hist, todo_items, done_items, running in *; simpl.
    split_and!; try done. intros l Hl. by apply elem_of_nil in Hl.
  - (* a completed task is yielded *)
    intros s task rest Hpc Hpending Hdone (Hfresh & Hqueued & Hperm & Hpc' & Hvisit).
    assert (Htask : ∃ t0, t0 ∈ added s ∧ task = LinkTask.run t0).
    { assert (Hin : task ∈ LinkTask.run <$> added s).
      { rewrite Hperm, Hdone. rewrite !elem_of_app. right. left. by left. }
      apply list_elem_of_fmap in Hin as (t0 & -> & Hin). by exists t0. }
    destruct Htask as (t0 & Ht0 & ->).
    destruct (Hfresh t0 Ht0) as (u & p & ->).
    pose proof (run_fresh_outcome u p (Args.timeout a) (Args.allow_redirects a))
      as Hout. simpl in Hout.
    set (task := LinkTask.run _) in *.
    destruct (report_cases a task
                (set_pool
                   (ThreadPool.mk (ThreadPool.threads (pool s))
                      (ThreadPool.todo (pool s))
                      (Queue.mk rest
                         (Queue.unfinished_tasks (ThreadPool.done (pool s))))
                      (ThreadPool.pending_tasks (pool s))) s))
      as [(e & He & ->)|[(He & Hst & ->)|(st & He & Hst & ->)]].
    + unfold Inv_hist, todo_items, done_items, running in *; simpl in *.
      split_and!; try done.
      * rewrite Hperm, Hdone. solve_Permutation.
      * intros l Hl. by apply elem_of_nil in Hl.
    + destruct Hout as [[? Hout]|[? Hout]]; congruence.
    + unfold Inv_hist, todo_items, done_items, running in *; simpl in *.
      split_and!; try done.
      * rewrite Hperm, Hdone. solve_Permutation.
      * intros l Hl. exists task. rewrite elem_of_app.
        split; [right; by left|]. done.
  - (* a link is visited *)
    intros s link rest Hpc (Hfresh & Hqueued & Hperm & Hpc' & Hvisit).
    assert (Hrest : ∀ l, l ∈ rest →
              ∃ t, t ∈ yielded s ∧ LinkTask.exception t = None
                   ∧ l ∈ LinkTask.links t).
    { intros l Hl. apply Hvisit. rewrite Hpc. simpl. by right. }
    destruct (visit_cases a link s)
      as [(Hin & ->)|[(Hin & _ & ->)|(Hin & _ & b & p & _ & _ & _ & ->)]].
    + unfold Inv_hist, todo_items, done_items, running in *; simpl in *.
      split_and!; done.
    + unfold Inv_hist, todo_items, done_items, running in *; simpl in *.
      split_and!; done.
    + unfold Inv_hist, todo_items, done_items, running in *; simpl in *.
      split_and!; try done.
      * intros t [Ht| ->%list_elem_of_singleton]%elem_of_app; [by apply Hfresh|].
        by eexists _, _.
      * intros t Ht. rewrite elem_of_app.
        rewrite <- (assoc_L (++)) in Ht.
        apply elem_of_app in Ht as [Ht|Ht].
        { left. apply Hqueued. rewrite elem_of_app. by left. }
        apply elem_of_app in Ht as [Ht|Ht].
        { by right. }
        left. apply Hqueued. rewrite elem_of_app. by right.
      * rewrite !fmap_app. simpl. rewrite Hperm.
        rewrite !fmap_app. solve_Permutation.
  - (* the generator is resumed *)
    intros s Hpc (Hfresh & Hqueued & Hperm & Hpc' & Hvisit).
    unfold Inv_hist, todo_items, done_items, running in *; simpl.
    split_and!; try done. intros l Hl. by apply elem_of_nil in Hl.
  - (* the run ends *)
    intros s Hpc Hjoin (Hfresh & Hqueued & Hperm & Hpc' & Hvisit).
    unfold Inv_hist, finish, todo_items, done_items, running in *.
    destruct (negb (Args.quiet a)); simpl.
    + split_and!; try done. intros l Hl. by apply elem_of_nil in Hl.
    + split_and!; try done. intros l Hl. by apply elem_of_nil in Hl.
  - (* a worker takes a task *)
    intros s i task rest Hw Htodo (Hfresh & Hqueued & Hperm & Hpc' & Hvisit).
    pose proof (held_insert _ _ _ (Worker.AtRun task) Hw) as Hheld.
    simpl in Hheld. rewrite app_nil_r in Hheld.
    unfold Inv_hist, todo_items, done_items, running in *; simpl in *.
    rewrite Htodo in *.
    split_and!; try done.
    * intros t Ht. apply Hqueued. rewrite Hheld in Ht.
      rewrite elem_of_app in Ht. rewrite elem_of_app, elem_of_cons.
      rewrite elem_of_app, list_elem_of_singleton in Ht. naive_solver.
    * rewrite Hperm, Hheld. rewrite !fmap_app. simpl. solve_Permutation.
  - (* a worker runs its task *)
    intros s i task Hw (Hfresh & Hqueued & Hperm & Hpc' & Hvisit).
    pose proof (held_insert _ _ _ Worker.AtTaskDone Hw) as Hheld.
    simpl in Hheld. rewrite app_nil_r in Hheld.
    unfold Inv_hist, todo_items, done_items, running in *; simpl in *.
    split_and!; try done.
    * intros t Ht. apply Hqueued. rewrite <- Hheld.
      rewrite !elem_of_app in *. naive_solver.
    * rewrite Hperm, <- Hheld. rewrite !fmap_app. simpl. solve_Permutation.
  - (* a worker marks its task done *)
    intros s i Hw (Hfresh & Hqueued & Hperm & Hpc' & Hvisit).
    pose proof (held_insert _ _ _ Worker.AtGet Hw) as Hheld.
    simpl in Hheld. rewrite !app_nil_r in Hheld.
    unfold Inv_hist, todo_items, done_items, running in *; simpl in *.
    split_and!; try done.
    * intros t Ht. apply Hqueued. by rewrite <- Hheld.
    * by rewrite Hperm, <- Hheld.
Qed.

Lemma Inv_hist_reachable (s : State) : reachable a s → Inv_hist a s.
Proof.
  apply reachable_ind; [apply Inv_hist_initial|].
  intros s0 th s1 _. apply Inv_hist_step.
Qed.

Lemma Inv_count_initial : Inv_count a (initial a).
Proof.
  unfold Inv_count, acking. rewrite running_initial.
  unfold initial, todo_items, done_items, ThreadPool.start; simpl.
  split_and!.
  - done.
  - assert (Hzero : ∀ n, sum_list_with is_acking (replicate n Worker.AtGet) = 0%nat).
    { induction n as [|n IH]; [done|]. simpl. done. }
    rewrite Hzero. done.
  - by rewrite length_replicate.
  - intros [|[c ?]]; done.
  - intros c ?; done.
Qed.

Lemma Inv_count_step (s s' : State) (th : Thread) :
  Inv_hist a s' → Inv_count a s → step a th s = Some s' → Inv_count a s'.
Proof.
  intros Hhist Hinv Hstep. revert Hhist Hinv. pattern s, s'. revert Hstep.
  apply step_elim; clear s s' th.
  - (* the loop ends *)
    intros s Hpc Hpending _ (Hp & Hu & Hw & Hj & Hx).
    unfold Inv_count, todo_items, done_items, running, acking in *; simpl.
    rewrite Hpc in *. simpl in *.
    split_and!; try done. intros _. lia.
  - (* a completed task is yielded *)
    intros s task rest Hpc Hpending Hdone (_ & _ & _ & Hpc' & _)
      (Hp & Hu & Hw & Hj & Hx).
    rewrite Hpc, Hdone in Hp. simpl in Hp.
    match type of Hpc' with context [report a task ?s0] =>
      destruct (report_cases a task s0)
        as [(e & He & Hr)|[(He & Hst & Hr)|(st & He & Hst & Hr)]];
      rewrite Hr in *; clear Hr
    end.
    + unfold Inv_count, todo_items, done_items, running, acking in *; simpl in *.
      split_and!; try done; [lia|naive_solver].
    + by destruct (Hpc' (OtherError "TypeError" "unorderable types")).
    + unfold Inv_count, todo_items, done_items, running, acking in *; simpl in *.
      split_and!; try done; [lia|naive_solver].
  - (* a link is visited *)
    intros s link rest Hpc _ (Hp & Hu & Hw & Hj & Hx).
    rewrite Hpc in Hp. simpl in Hp.
    destruct (visit_cases a link s)
      as [(Hin & ->)|[(Hin & _ & ->)|(Hin & _ & b & p & _ & _ & _ & ->)]].
    + unfold Inv_count, todo_items, done_items, running, acking in *; simpl in *.
      split_and!; try done; naive_solver.
    + unfold Inv_count, todo_items, done_items, running, acking in *; simpl in *.
      split_and!; try done; naive_solver.
    + unfold Inv_count, todo_items, done_items, running, acking in *; simpl in *.
      rewrite !length_app. simpl.
      split_and!; try done; [lia|lia|naive_solver].
  - (* the generator is resumed *)
    intros s Hpc _ (Hp & Hu & Hw & Hj & Hx).
    rewrite Hpc in Hp. simpl in Hp.
    unfold Inv_count, todo_items, done_items, running, acking in *; simpl in *.
    split_and!; try done; [lia|naive_solver].
  - (* the run ends *)
    intros s Hpc Hjoin _ (Hp & Hu & Hw & Hj & Hx).
    rewrite Hpc in Hp. simpl in Hp.
    assert (Hz : ThreadPool.pending_tasks (pool s) = 0) by (apply Hj; by left).
    unfold Inv_count, finish, todo_items, done_items, running, acking in *.
    destruct (negb (Args.quiet a)); simpl in *.
    + split_and!; try done. intros c [= <-]. done.
    + split_and!; try done. intros c [= <-]. done.
  - (* a worker takes a task *)
    intros s i task rest Hwi Htodo _ (Hp & Hu & Hw & Hj & Hx).
    pose proof (held_insert _ _ _ (Worker.AtRun task) Hwi) as Hheld.
    apply Permutation_length in Hheld. rewrite !length_app in Hheld.
    pose proof (sum_list_with_insert is_acking _ _ _ (Worker.AtRun task) Hwi)
      as Hack.
    unfold Inv_count, todo_items, done_items, running, acking in *; simpl in *.
    rewrite Htodo in *. simpl in *. rewrite length_insert.
    split_and!; try done; lia.
  - (* a worker runs its task *)
    intros s i task Hwi _ (Hp & Hu & Hw & Hj & Hx).
    pose proof (held_insert _ _ _ Worker.AtTaskDone Hwi) as Hheld.
    apply Permutation_length in Hheld. rewrite !length_app in Hheld.
    pose proof (sum_list_with_insert is_acking _ _ _ Worker.AtTaskDone Hwi)
      as Hack.
    unfold Inv_count, todo_items, done_items, running, acking in *; simpl in *.
    rewrite length_insert, !length_app. simpl.
    split_and!; try done; lia.
  - (* a worker marks its task done *)
    intros s i Hwi _ (Hp & Hu & Hw & Hj & Hx).
    pose proof (held_insert _ _ _ Worker.AtGet Hwi) as Hheld.
    apply Permutation_length in Hheld. rewrite !length_app in Hheld.
    pose proof (sum_list_with_insert is_acking _ _ _ Worker.AtGet Hwi)
      as Hack.
    unfold Inv_count, todo_items, done_items, running, acking in *; simpl in *.
    rewrite length_insert.
    split_and!; try done; try lia.
    intros c Hc. destruct (Hx c Hc) as [-> Hzero]. lia.
Qed.

Lemma Inv_count_reachable (s : State) : reachable a s → Inv_count a s.
Proof.
  apply reachable_ind; [apply Inv_count_initial|].
  intros s0 th s1 Hreach Hinv Hstep.
  eapply Inv_count_step; [|exact Hinv|exact Hstep].
  apply Inv_hist_reachable. by eapply reachable_step.
Qed.

(** What [report] and [finish] leave alone. *)
Lemma report_frame (task : LinkTask.t) (s : State) :
  let s' := report a task s in
  pool s' = pool s ∧ workers s' = workers s ∧ link_cache s' = link_cache s
  ∧ netloc s' = netloc s ∧ added s' = added s
  ∧ st_total_links s' = st_total_links s
  ∧ st_total_internal s' = st_total_internal s
  ∧ st_total_external s' = st_total_external s
  ∧ yielded s' = yielded s ++ [task].
Proof.
  simpl.
  destruct (report_cases a task s)
    as [(e & He & ->)|[(He & Hst & ->)|(st & He & Hst & ->)]]; done.
Qed.

Lemma finish_frame (s : State) :
  let s' := finish a s in
  pool s' = pool s ∧ workers s' = workers s ∧ link_cache s' = link_cache s
  ∧ netloc s' = netloc s ∧ added s' = added s ∧ yielded s' = yielded s
  ∧ status s' = status s ∧ stdout s' = stdout s
  ∧ st_total_links s' = st_total_links s
  ∧ st_total_internal s' = st_total_internal s
  ∧ st_total_external s' = st_total_external s
  ∧ st_error_task s' = st_error_task s
  ∧ st_error_link s' = st_error_link s
  ∧ pc s' = Exited (status s).
Proof. simpl. unfold finish. by destruct (negb (Args.quiet a)). Qed.

Lemma Inv_cache_frame (s s' : State) :
  netloc s' = netloc s → link_cache s' = link_cache s → added s' = added s →
  Inv_cache a s → Inv_cache a s'.
Proof. unfold Inv_cache. by intros -> -> ->. Qed.

Lemma Inv_cache_initial : Inv_cache a (initial a).
Proof.
  unfold Inv_cache, initial; simpl. split_and!.
  - done.
  - set_solver.
  - exists []. split; [done|]. constructor.
  - apply NoDup_singleton.
  - intros t ->%list_elem_of_singleton. simpl. set_solver.
  - intros u ->%elem_of_singleton _ _. exists (seed_task a).
    split; [by left|done].
Qed.

Lemma Inv_cache_step (s s' : State) (th : Thread) :
  Inv_cache a s → step a th s = Some s' → Inv_cache a s'.
Proof.
  intros Hinv Hstep. revert Hinv. pattern s, s'. revert Hstep.
  apply step_elim; clear s s' th.
  - intros s _ _. by apply Inv_cache_frame.
  - intros s task rest _ _ _.
    match goal with |- context [report a task ?s0] =>
      destruct (report_frame task s0) as (_ & _ & Hc & Hn & Ha & _)
    end.
    by apply Inv_cache_frame.
  - intros s link rest Hpc (Hn & Hurl & (tl & Hadded & Hacc) & Hnodup & Hin & Hcomplete).
    destruct (visit_cases a link s)
      as [(Hc & ->)|[(Hc & Hskip & ->)|(Hc & Hhttp & b & p & Hb & Hp & Hnot & ->)]].
    + unfold Inv_cache; simpl. split_and!; eauto.
    + unfold Inv_cache; simpl. split_and!; eauto.
      * set_solver.
      * intros t Ht. apply Hin in Ht. set_solver.
      * intros u [->%elem_of_singleton|Hu]%elem_of_union Hs Hpol; [|eauto].
        exfalso. destruct Hskip as [Hskip|Hskip]; [congruence|].
        apply Hpol. unfold policy_of, is_internal. by rewrite <- Hn.
    + assert (Hpol : policy_of a (urldefrag link) = p).
      { unfold policy_of, is_internal. by rewrite <- Hn, Hb, Hp. }
      unfold Inv_cache; simpl. split_and!; eauto.
      * set_solver.
      * exists (tl ++ [LinkTask.__init__ (urldefrag link) (Policy_eqb p follow)
                         (Args.timeout a) (Args.allow_redirects a)]).
        rewrite Hadded. split; [done|]. apply Forall_app. split; [done|].
        apply Forall_singleton. unfold accepted. simpl.
        rewrite Hpol. split_and!; eauto.
      * rewrite fmap_app. simpl. apply NoDup_app. split_and!; [done| |].
        -- intros u Hu ->%list_elem_of_singleton.
           apply list_elem_of_fmap in Hu as (t & Ht & Htin).
           apply Hc. rewrite Ht. by apply Hin.
        -- apply NoDup_singleton.
      * intros t [Ht| ->%list_elem_of_singleton]%elem_of_app.
        -- apply Hin in Ht. set_solver.
        -- simpl. set_solver.
      * intros u [->%elem_of_singleton|Hu]%elem_of_union Hs Hpol'.
        -- eexists. split; [apply elem_of_app; right; by left|done].
        -- destruct (Hcomplete u Hu Hs Hpol') as (t & Ht & Hl).
           exists t. split; [apply elem_of_app; by left|done].
  - intros s _. by apply Inv_cache_frame.
  - intros s _ _.
    destruct (finish_frame s) as (_ & _ & Hc & Hn & Ha & _).
    by apply Inv_cache_frame.
  - intros s i task rest _ _. by apply Inv_cache_frame.
  - intros s i task _. by apply Inv_cache_frame.
  - intros s i _. by apply Inv_cache_frame.
Qed.

Lemma Inv_cache_reachable (s : State) : reachable a s → Inv_cache a s.
Proof.
  apply reachable_ind; [apply Inv_cache_initial|].
  intros s0 th s1 _. apply Inv_cache_step.
Qed.

Lemma summary_frame (s s' : State) :
  pc s' = pc s → st_total_links s' = st_total_links s →
  st_total_internal s' = st_total_internal s →
  st_total_external s' = st_total_external s →
  st_error_task s' = st_error_task s → st_error_link s' = st_error_link s →
  summary a s' = summary a s.
Proof. unfold summary. by intros -> -> -> -> -> ->. Qed.

Lemma Inv_stats_frame (s s' : State) :
  summary a s' = summary a s →
  added s' = added s → yielded s' = yielded s →
  status s' = status s → stdout s' = stdout s → stderr s' = stderr s →
  st_total_links s' = st_total_links s →
  st_total_internal s' = st_total_internal s →
  st_total_external s' = st_total_external s →
  st_error_task s' = st_error_task s → st_error_link s' = st_error_link s →
  Inv_stats a s → Inv_stats a s'.
Proof.
  intros Hsum Ha Hy Hs Ho He H1 H2 H3 H4 H5. unfold Inv_stats.
  by rewrite Hsum, Ha, Hy, Hs, Ho, He, H1, H2, H3, H4, H5.
Qed.

Lemma summary_running (s : State) :
  (∀ c, pc s ≠ Exited c) → summary a s = [].
Proof. unfold summary. destruct (pc s); naive_solver. Qed.

Lemma length_filter_snoc {A} (P : A → Prop) `{!∀ x, Decision (P x)}
    (l : list A) (x : A) :
  Z.of_nat (length (filter P (l ++ [x])))
  = Z.of_nat (length (filter P l)) + (if decide (P x) then 1 else 0).
Proof.
  rewrite filter_app, length_app. simpl. rewrite filter_cons, filter_nil.
  destruct (decide (P x)); simpl; lia.
Qed.

Lemma Inv_stats_initial : Inv_stats a (initial a).
Proof.
  unfold Inv_stats, initial, summary; simpl. split_and!; try done.
  all: rewrite filter_cons, filter_nil; simpl.
  all: unfold is_internal; simpl; rewrite String.eqb_refl.
  all: case_decide; done.
Qed.

Lemma Inv_stats_step (s s' : State) (th : Thread) :
  Inv_cache a s → Inv_stats a s → step a th s = Some s' → Inv_stats a s'.
Proof.
  intros Hcache Hinv Hstep. revert Hcache Hinv. pattern s, s'. revert Hstep.
  apply step_elim; clear s s' th.
  - intros s Hpc _ _ (Hl & Hi & He & Het & Hel & Hst & Hout & Herr).
    unfold Inv_stats. unfold summary in *. rewrite Hpc in Herr. simpl. done.
  - intros s task rest Hpc _ _ _ (Hl & Hi & He & Het & Hel & Hst & Hout & Herr).
    rewrite summary_running in Herr by (rewrite Hpc; done).
    rewrite app_nil_r in Herr.
    match goal with |- context [report a task ?s0] =>
      destruct (report_cases a task s0)
        as [(e & Hexc & ->)|[(Hexc & Hstat & ->)|(st & Hexc & Hstat & ->)]]
    end.
    + unfold Inv_stats, summary; simpl.
      rewrite !length_filter_snoc, !bind_app. simpl.
      rewrite !app_nil_r. split_and!; try done.
      * rewrite Het. destruct (decide (failed task)) as [|Hn]; [done|].
        destruct Hn. unfold failed. by rewrite Hexc.
      * rewrite Hel. unfold link_error. rewrite Hexc.
        destruct (decide (false = true)); [done|lia].
      * destruct (decide (Exists failed (yielded s ++ [task]))) as [|Hn];
          [done|]. destruct Hn.
        apply Exists_app. right. apply Exists_cons. left.
        unfold failed. by rewrite Hexc.
      * rewrite Hout. unfold report_lines. rewrite Hexc. by rewrite app_nil_r.
      * by rewrite Herr.
    + unfold Inv_stats, summary; simpl.
      rewrite !length_filter_snoc, !bind_app. simpl.
      rewrite !app_nil_r. split_and!; try done.
      * rewrite Het. destruct (decide (failed task)) as [[e Hf]|Hn]; [|lia].
        congruence.
      * rewrite Hel. unfold link_error. rewrite Hexc, Hstat.
        destruct (decide (false = true)); [done|lia].
      * rewrite Hst. destruct (decide (Exists failed (yielded s))) as [Hy|Hy];
          destruct (decide (Exists failed (yielded s ++ [task]))) as [Hy'|Hy'];
          try done.
        -- destruct Hy'. apply Exists_app. by left.
        -- apply Exists_app in Hy' as [?|Hy']; [done|].
           apply Exists_cons in Hy' as [[e Hf]|Hy']; [congruence|].
           by apply Exists_nil in Hy'.
      * rewrite Hout. unfold report_lines. rewrite Hexc, Hstat.
        by rewrite app_nil_r.
      * rewrite Herr. unfold error_lines. rewrite Hexc. by rewrite app_nil_r.
    + unfold Inv_stats, summary; simpl.
      rewrite !length_filter_snoc, !bind_app. simpl.
      rewrite !app_nil_r. split_and!; try done.
      * rewrite Het. destruct (decide (failed task)) as [[e Hf]|Hn]; [|lia].
        congruence.
      * rewrite Hel. destruct (link_error task); case_decide; done.
      * rewrite Hst. destruct (decide (Exists failed (yielded s))) as [Hy|Hy];
          destruct (decide (Exists failed (yielded s ++ [task]))) as [Hy'|Hy'];
          try done.
        -- destruct Hy'. apply Exists_app. by left.
        -- apply Exists_app in Hy' as [?|Hy']; [done|].
           apply Exists_cons in Hy' as [[e Hf]|Hy']; [congruence|].
           by apply Exists_nil in Hy'.
      * by rewrite Hout.
      * rewrite Herr. unfold error_lines. rewrite Hexc. by rewrite app_nil_r.
  - intros s link rest Hpc (Hn & _) Hinv.
    destruct (visit_cases a link s)
      as [(Hc & ->)|[(Hc & Hskip & ->)|(Hc & Hhttp & b & p & Hb & Hp & Hnot & ->)]].
    + revert Hinv. apply Inv_stats_frame; try done.
      unfold summary. simpl. by rewrite Hpc.
    + revert Hinv. apply Inv_stats_frame; try done.
      unfold summary. simpl. by rewrite Hpc.
    + destruct Hinv as (Hl & Hi & He & Het & Hel & Hst & Hout & Herr).
      rewrite summary_running in Herr by (rewrite Hpc; done).
      assert (Hint : is_internal a (urldefrag link) = b).
      { unfold is_internal. by rewrite <- Hn. }
      unfold Inv_stats, summary; simpl.
      rewrite !length_filter_snoc, length_app. simpl. rewrite Hint.
      split_and!; try done.
      * lia.
      * rewrite Hi. destruct b; case_decide; done.
      * rewrite He. destruct b; case_decide; done.
  - intros s Hpc _. apply Inv_stats_frame; try done.
    unfold summary. simpl. by rewrite Hpc.
  - intros s Hpc _ _ (Hl & Hi & He & Het & Hel & Hst & Hout & Herr).
    rewrite summary_running in Herr by (rewrite Hpc; done).
    rewrite app_nil_r in Herr.
    unfold Inv_stats, finish, summary.
    destruct (Args.quiet a); simpl; rewrite ?app_nil_r; split_and!; try done.
    by rewrite Herr.
  - intros s i task rest _ _ _. by apply Inv_stats_frame.
  - intros s i task _ _. by apply Inv_stats_frame.
  - intros s i _ _. by apply Inv_stats_frame.
Qed.

Lemma Inv_stats_reachable (s : State) : reachable a s → Inv_stats a s.
Proof.
  apply reachable_ind; [apply Inv_stats_initial|].
  intros s0 th s1 Hreach. apply Inv_stats_step. by apply Inv_cache_reachable.
Qed.

Lemma Inv_seen_initial : Inv_seen a (initial a).
Proof. intros t l Ht. by apply elem_of_nil in Ht. Qed.

Lemma Inv_seen_step (s s' : State) (th : Thread) :
  Inv_hist a s' → Inv_seen a s → step a th s = Some s' → Inv_seen a s'.
Proof.
  intros Hhist Hinv Hstep. revert Hhist Hinv. pattern s, s'. revert Hstep.
  apply step_elim; clear s s' th.
  - intros s Hpc _ _ Hinv t l Ht He Hl. simpl in *.
    destruct (Hinv t l Ht He Hl) as [Hv|Hc]; [|by right].
    rewrite Hpc in Hv. by apply elem_of_nil in Hv.
  - intros s task rest Hpc _ _ (_ & _ & _ & Hpc' & _) Hinv t l.
    match goal with |- context [report a task ?s0] =>
      destruct (report_cases a task s0)
        as [(e & Hexc & Hr)|[(Hexc & Hstat & Hr)|(st & Hexc & Hstat & Hr)]];
      rewrite Hr in *; clear Hr
    end; simpl.
    + intros [Ht| ->%list_elem_of_singleton]%elem_of_app He Hl; [|congruence].
      destruct (Hinv t l Ht He Hl) as [Hv|Hc]; [|by right].
      rewrite Hpc in Hv. by apply elem_of_nil in Hv.
    + by destruct (Hpc' (OtherError "TypeError" "unorderable types")).
    + intros [Ht| ->%list_elem_of_singleton]%elem_of_app He Hl; [|by left].
      destruct (Hinv t l Ht He Hl) as [Hv|Hc]; [|by right].
      rewrite Hpc in Hv. by apply elem_of_nil in Hv.
  - intros s link rest Hpc _ Hinv t l.
    assert (Hcases : ∀ l0, l0 ∈ link :: rest ∨ urldefrag l0 ∈ link_cache s →
              l0 ∈ rest ∨ urldefrag l0 ∈ link_cache (visit a link s)
              ∧ yielded (visit a link s) = yielded s).
    { intros l0 Hl0.
      destruct (visit_cases a link s)
        as [(Hc & ->)|[(Hc & _ & ->)|(Hc & _ & b & p & _ & _ & _ & ->)]]; simpl.
      - destruct Hl0 as [[->|?]%elem_of_cons|?]; eauto.
      - destruct Hl0 as [[->|?]%elem_of_cons|?]; eauto; right;
          (split; [set_solver|done]).
      - destruct Hl0 as [[->|?]%elem_of_cons|?]; eauto; right;
          (split; [set_solver|done]). }
    simpl. intros Ht He Hl.
    assert (Hy : yielded (visit a link s) = yielded s).
    { destruct (visit_cases a link s)
        as [(Hc & ->)|[(Hc & _ & ->)|(Hc & _ & b & p & _ & _ & _ & ->)]]; done. }
    rewrite Hy in Ht. specialize (Hinv t l Ht He Hl). rewrite Hpc in Hinv.
    destruct (Hcases l Hinv) as [?|[? _]]; eauto.
  - intros s Hpc _ Hinv t l Ht He Hl. simpl in *.
    destruct (Hinv t l Ht He Hl) as [Hv|Hc]; [|by right].
    rewrite Hpc in Hv. by apply elem_of_nil in Hv.
  - intros s Hpc _ _ Hinv t l.
    destruct (finish_frame s) as (_ & _ & Hc & _ & _ & Hy & _). simpl in *.
    rewrite Hc, Hy. intros Ht He Hl. right.
    destruct (Hinv t l Ht He Hl) as [Hv|?]; [|done].
    rewrite Hpc in Hv. by apply elem_of_nil in Hv.
  - intros s i task rest _ _ _ Hinv. exact Hinv.
  - intros s i task _ _ Hinv. exact Hinv.
  - intros s i _ _ Hinv. exact Hinv.
Qed.

Lemma Inv_seen_reachable (s : State) : reachable a s → Inv_seen a s.
Proof.
  apply reachable_ind; [apply Inv_seen_initial|].
  intros s0 th s1 Hreach Hinv Hstep.
  eapply Inv_seen_step; [|exact Hinv|exact Hstep].
  apply Inv_hist_reachable. by eapply reachable_step.
Qed.

End Invariants.

(** ** Termination *)

Section Termination.
Context `{!UrlLib, !Requests} (a : Args.t).

(** Either every worker waits for a task, or some worker can move. *)
Lemma workers_idle_or_busy (ws : list Worker.t) :
  (ws ≫= held = [] ∧ sum_list_with is_acking ws = 0%nat
   ∧ Forall (λ w, w = Worker.AtGet) ws)
  ∨ (∃ i w, ws !! i = Some w ∧ w ≠ Worker.AtGet).
Proof.
  induction ws as [|w ws [(Hh & Hk & Hall)|(i & w' & Hi & Hw')]].
  - left. split_and!; [done|done|constructor].
  - destruct w as [|task|].
    + left. simpl. split_and!; [done|done|by constructor].
    + right. by exists 0%nat, (Worker.AtRun task).
    + right. by exists 0%nat, Worker.AtTaskDone.
  - right. by exists (S i), w'.
Qed.

Lemma busy_worker_steps (s : State) (i : nat) (w : Worker.t) :
  workers s !! i = Some w → w ≠ Worker.AtGet →
  ∃ s', step a (WorkerThread i) s = Some s'.
Proof.
  intros Hi Hw. simpl. unfold worker_step. rewrite Hi. simpl.
  destruct w as [|task|]; [done| |]; simpl; by eexists.
Qed.

Lemma busy_worker_counted (s : State) (i : nat) (w : Worker.t) :
  workers s !! i = Some w → w ≠ Worker.AtGet →
  (0 < length (running s) + acking s)%nat.
Proof.
  intros Hi Hw. unfold running, acking.
  pose proof (held_insert _ _ _ Worker.AtGet Hi) as Hheld.
  apply Permutation_length in Hheld. rewrite !length_app in Hheld.
  pose proof (sum_list_with_insert is_acking _ _ _ Worker.AtGet Hi) as Hack.
  destruct w as [|task|]; [done| |]; simpl in *; lia.
Qed.

(** No deadlock: as long as the run has not exited, some thread can move. *)
Lemma progress (s : State) :
  0 < Args.threads a → reachable a s → (∀ c, pc s ≠ Exited c) →
  ∃ th s', step a th s = Some s'.
Proof.
  intros Hthreads Hreach Hrunning.
  destruct (Inv_count_reachable a s Hreach) as (Hp & Hu & Hw & Hj & Hx).
  destruct (Inv_hist_reachable a s Hreach) as (_ & _ & _ & Hpc & _).
  destruct (pc s) as [|[|link rest]| |c|e] eqn:Hs.
  - (* waiting for a completed task *)
    destruct (decide (0 < ThreadPool.pending_tasks (pool s))) as [Hpos|Hzero].
    + destruct (done_items s) as [|task rest] eqn:Hdone.
      * destruct (workers_idle_or_busy (workers s))
          as [(Hh & Hk & Hall)|(i & w & Hi & Hw')].
        -- (* every worker is idle: the queue is not empty *)
           unfold running in Hp. rewrite Hh in Hp. simpl in Hp.
           destruct (workers s) as [|w ws] eqn:Hws; [simpl in Hw; lia|].
           apply Forall_cons in Hall as [-> _].
           destruct (todo_items s) as [|task rest] eqn:Htodo; [simpl in Hp; lia|].
           exists (WorkerThread 0). simpl. unfold worker_step. rewrite Hws.
           simpl. unfold Queue.get. unfold todo_items in Htodo. rewrite Htodo.
           simpl. by eexists.
        -- exists (WorkerThread i). by eapply busy_worker_steps.
      * exists MainThread. simpl. unfold main_step. rewrite Hs.
        apply Z.ltb_lt in Hpos. rewrite Hpos.
        unfold ThreadPool.wait_for_task, Queue.get.
        unfold done_items in Hdone. rewrite Hdone. by eexists.
    + exists MainThread. simpl. unfold main_step. rewrite Hs.
      apply Z.ltb_nlt in Hzero. rewrite Hzero. by eexists.
  - exists MainThread. simpl. unfold main_step. rewrite Hs. by eexists.
  - exists MainThread. simpl. unfold main_step. rewrite Hs. by eexists.
  - (* waiting for the workers to mark their tasks done *)
    destruct (decide (Queue.unfinished_tasks (ThreadPool.todo (pool s)) = 0))
      as [Hzero|Hpos].
    + exists MainThread. simpl. unfold main_step. rewrite Hs.
      unfold Queue.joinable. apply Z.eqb_eq in Hzero. rewrite Hzero.
      by eexists.
    + destruct (workers_idle_or_busy (workers s))
        as [(Hh & Hk & Hall)|(i & w & Hi & Hw')].
      * exfalso. apply Hpos. rewrite Hu. unfold running, acking.
        rewrite Hh, Hk. simpl in *. rewrite Hj in Hp by (by left).
        unfold running in Hp. lia.
      * exists (WorkerThread i). by eapply busy_worker_steps.
  - by destruct (Hrunning c).
  - by destruct (Hpc e).
Qed.

(** After the exit nothing moves. *)
Lemma exited_is_final (s : State) (c : Z) :
  reachable a s → pc s = Exited c → nf (step_rel a) s.
Proof.
  intros Hreach Hs [s' [th Hstep]].
  destruct (Inv_count_reachable a s Hreach) as (Hp & Hu & Hw & Hj & Hx).
  destruct (Hx c Hs) as [_ Hzero]. rewrite Hzero in Hu.
  destruct th as [|i]; simpl in Hstep.
  - unfold main_step in Hstep. by rewrite Hs in Hstep.
  - unfold worker_step in Hstep.
    destruct (workers s !! i) as [w|] eqn:Hi; [|done]. simpl in Hstep.
    assert (Hidle : w = Worker.AtGet).
    { destruct w as [|task|]; [done| |].
      - by pose proof (busy_worker_counted s i _ Hi ltac:(done)); lia.
      - by pose proof (busy_worker_counted s i _ Hi ltac:(done)); lia. }
    subst w. simpl in Hstep. unfold Queue.get in Hstep.
    unfold todo_items in Hu.
    destruct (Queue.items (ThreadPool.todo (pool s))); [done|].
    simpl in Hu. lia.
Qed.

(** Every completed task is the run of a task that was created. *)
Lemma yielded_is_run (s : State) (t : LinkTask.t) :
  reachable a s → t ∈ done_items s ++ yielded s →
  ∃ u p, u ∈ link_cache s
         ∧ t = LinkTask.run (LinkTask.__init__ u p (Args.timeout a)
                               (Args.allow_redirects a)).
Proof.
  intros Hreach Ht.
  destruct (Inv_hist_reachable a s Hreach) as (Hfresh & _ & Hperm & _).
  destruct (Inv_cache_reachable a s Hreach) as (_ & _ & _ & _ & Hin & _).
  assert (Hrun : t ∈ LinkTask.run <$> added s).
  { rewrite Hperm. apply elem_of_app. by right. }
  apply list_elem_of_fmap in Hrun as (t0 & -> & Ht0).
  destruct (Hfresh t0 Ht0) as (u & p & ->). exists u, p.
  split; [|done]. by apply (Hin _ Ht0).
Qed.

Section Finite.
Context (U : gset string) (Hclosed : link_closed a U).

Lemma cache_in_graph (s : State) : reachable a s → link_cache s ⊆ U.
Proof.
  revert s. apply (reachable_ind a (λ s, link_cache s ⊆ U)).
  { unfold initial; simpl. destruct Hclosed as [Hurl _]. set_solver. }
  intros s th s' Hreach Hinv Hstep.
  destruct (Inv_hist_reachable a s Hreach) as (_ & _ & _ & _ & Hvisit).
  revert Hreach Hinv Hvisit. pattern s, s'. revert Hstep.
  apply step_elim; clear s s' th; try done.
  - intros s task rest _ _ _ _ Hinv _.
    match goal with |- context [report a task ?s0] =>
      destruct (report_frame a task s0) as (_ & _ & -> & _)
    end. done.
  - intros s link rest Hpc Hreach Hinv Hvisit.
    assert (Hlink : urldefrag link ∈ U).
    { destruct (Hvisit link) as (t & Ht & He & Hl); [rewrite Hpc; by left|].
      destruct (yielded_is_run s t Hreach) as (u & p & Hu & ->).
      { apply elem_of_app. by right. }
      destruct Hclosed as [_ Hlinks]. eapply Hlinks; [|exact Hl]. set_solver. }
    destruct (visit_cases a link s)
      as [(Hc & ->)|[(Hc & _ & ->)|(Hc & _ & b & p & _ & _ & _ & ->)]];
      simpl; set_solver.
  - intros s _ _ _ Hinv _.
    destruct (finish_frame a s) as (_ & _ & -> & _). done.
Qed.

Lemma size_difference_insert (C : gset string) (u : string) :
  u ∈ U → u ∉ C → (size (U ∖ ({[u]} ∪ C)) + 1 = size (U ∖ C))%nat.
Proof.
  intros Hu Hc.
  assert (Heq : U ∖ C = {[u]} ∪ U ∖ ({[u]} ∪ C)).
  { apply set_eq. intros x. destruct (decide (x = u)); set_solver. }
  rewrite Heq.
  pose proof (size_union (C:=gset string) {[u]} (U ∖ ({[u]} ∪ C))) as Hsize.
  rewrite Hsize by set_solver.
  pose proof (size_singleton (C:=gset string) u) as Hone. lia.
Qed.

(** Every step makes the pair (measure, links to visit) smaller. *)
Lemma step_decreases (s s' : State) (th : Thread) :
  reachable a s → step a th s = Some s' →
  (measure U s' < measure U s)%nat
  ∨ (measure U s' = measure U s
     ∧ (length (to_visit (pc s')) < length (to_visit (pc s)))%nat).
Proof.
  intros Hreach Hstep.
  pose proof (cache_in_graph s' (reachable_step a s s' th Hreach Hstep))
    as Hgraph.
  revert Hreach Hgraph. pattern s, s'. revert Hstep.
  apply step_elim; clear s s' th.
  - intros s Hpc _ _ _. left. unfold measure, todo_items, done_items.
    simpl. rewrite Hpc. simpl. lia.
  - intros s task rest Hpc _ Hdone _ _. left.
    match goal with |- context [report a task ?s0] =>
      destruct (report_cases a task s0)
        as [(e & _ & ->)|[(_ & _ & ->)|(st & _ & _ & ->)]]
    end; unfold measure, todo_items, done_items in *; simpl;
      rewrite Hpc, Hdone; simpl; lia.
  - intros s link rest Hpc _ Hgraph.
    destruct (visit_cases a link s)
      as [(Hc & Hv)|[(Hc & _ & Hv)|(Hc & _ & b & p & _ & _ & _ & Hv)]];
      rewrite Hv in *; clear Hv; simpl in Hgraph.
    + right. unfold measure, todo_items, done_items. simpl.
      rewrite Hpc. simpl. split; lia.
    + left. unfold measure, todo_items, done_items. simpl.
      rewrite Hpc. simpl.
      pose proof (size_difference_insert (link_cache s) (urldefrag link)
                    ltac:(set_solver) Hc). lia.
    + left. unfold measure, todo_items, done_items. simpl.
      rewrite Hpc, length_app. simpl.
      pose proof (size_difference_insert (link_cache s) (urldefrag link)
                    ltac:(set_solver) Hc). lia.
  - intros s Hpc _ _. left. unfold measure, todo_items, done_items.
    simpl. rewrite Hpc. simpl. lia.
  - intros s Hpc _ _ _. left.
    destruct (finish_frame a s) as (Hpool & Hws & Hcache & _ & _ & _ & _ & _
                                    & _ & _ & _ & _ & _ & Hexit).
    unfold measure, todo_items, done_items.
    rewrite Hpool, Hws, Hcache, Hexit, Hpc. simpl. lia.
  - intros s i task rest Hi Htodo _ _. left.
    pose proof (sum_list_with_insert worker_weight _ _ _ (Worker.AtRun task) Hi)
      as Hsum.
    unfold measure, todo_items, done_items in *. simpl in *.
    rewrite Htodo. simpl. lia.
  - intros s i task Hi _ _. left.
    pose proof (sum_list_with_insert worker_weight _ _ _ Worker.AtTaskDone Hi)
      as Hsum.
    unfold measure, todo_items, done_items in *. simpl in *.
    rewrite length_app. simpl. lia.
  - intros s i Hi _ _. left.
    pose proof (sum_list_with_insert worker_weight _ _ _ Worker.AtGet Hi)
      as Hsum.
    unfold measure, todo_items, done_items in *. simpl in *. lia.
Qed.

(** On a finite link graph there is no infinite run. *)
Lemma no_infinite_run (s : State) : reachable a s → sn (step_rel a) s.
Proof.
  assert (Hwf : ∀ n m s, reachable a s → measure U s = n →
                  length (to_visit (pc s)) = m → sn (step_rel a) s).
  { induction n as [n IHn] using lt_wf_ind.
    induction m as [m IHm] using lt_wf_ind.
    intros s0 Hreach Hn Hm. constructor. intros s' [th Hstep].
    pose proof (reachable_step a s0 s' th Hreach Hstep) as Hreach'.
    destruct (step_decreases s0 s' th Hreach Hstep) as [Hlt|[Heq Hlt]].
    - eapply (IHn (measure U s')); [lia|done|done|done].
    - eapply (IHm (length (to_visit (pc s')))); [lia|done|lia|done]. }
  intros Hreach. by eapply Hwf.
Qed.

End Finite.

End Termination.

(** ** Schedules *)

Section Schedules.
Context `{!UrlLib, !Requests} (a : Args.t).

Lemma exec_reachable (schedule : list Thread) (s s' : State) :
  reachable a s → exec a schedule s = Some s' → reachable a s'.
Proof.
  revert s. induction schedule as [|th schedule IH]; intros s Hreach Hexec.
  - simpl in Hexec. by injection Hexec as <-.
  - simpl in Hexec. destruct (step a th s) as [s1|] eqn:Hstep; [|done].
    simpl in Hexec. eapply IH; [|exact Hexec]. by eapply reachable_step.
Qed.

Lemma run_reachable (schedule : list Thread) (s : State) :
  run a schedule = Some s → reachable a s.
Proof. apply exec_reachable. apply rtc_refl. Qed.

Lemma exec_snoc (schedule : list Thread) (th : Thread) (s s1 s2 : State) :
  exec a schedule s = Some s1 → step a th s1 = Some s2 →
  exec a (schedule ++ [th]) s = Some s2.
Proof.
  revert s. induction schedule as [|th' schedule IH]; intros s Hexec Hstep.
  - simpl in *. injection Hexec as ->. by rewrite Hstep.
  - simpl in *. destruct (step a th' s) as [s'|]; [|done]. simpl in *.
    by apply IH.
Qed.

(** The reachable states are the states that [run] returns. *)
Lemma reachable_run (s : State) :
  reachable a s → ∃ schedule, run a schedule = Some s.
Proof.
  revert s. apply reachable_ind.
  - by exists [].
  - intros s th s' _ [schedule Hrun] Hstep. exists (schedule ++ [th]).
    by eapply exec_snoc.
Qed.

Lemma outcome_reachable (fuel : nat) : reachable a (outcome a fuel).
Proof.
  unfold outcome. destruct (run a _) as [s|] eqn:Hrun; simpl.
  - by eapply run_reachable.
  - apply rtc_refl.
Qed.

(** When the run has exited, every task that was created has been run
    and yielded, once. *)
Lemma exit_all_completed (s : State) (c : Z) :
  reachable a s → pc s = Exited c →
  todo_items s = [] ∧ running s = [] ∧ done_items s = []
  ∧ yielded s ≡ₚ LinkTask.run <$> added s.
Proof.
  intros Hreach Hpc.
  destruct (Inv_count_reachable a s Hreach) as (Hp & Hu & Hw & Hj & Hx).
  destruct (Inv_hist_reachable a s Hreach) as (_ & _ & Hperm & _).
  rewrite Hj in Hp by (right; by exists c). rewrite Hpc in Hp. simpl in Hp.
  destruct (todo_items s); [|simpl in Hp; lia].
  destruct (running s); [|simpl in Hp; lia].
  destruct (done_items s); [|simpl in Hp; lia].
  split_and!; done.
Qed.

End Schedules.

(** ** The frontier counter and termination *)

Section Frontier.
Context `{!UrlLib, !Requests} (a : Args.t).

(** The counter is the number of tasks created less the number of tasks
    whose turn in the loop is over. *)
Lemma pending_is_created_less_completed (s : State) :
  reachable a s →
  0 ≤ ThreadPool.pending_tasks (pool s)
  ∧ ThreadPool.pending_tasks (pool s)
    = Z.of_nat (length (added s))
      - (Z.of_nat (length (yielded s)) - in_body (pc s)).
Proof.
  intros Hreach.
  destruct (Inv_count_reachable a s Hreach) as (Hp & _).
  destruct (Inv_hist_reachable a s Hreach) as (_ & _ & Hperm & _).
  apply Permutation_length in Hperm.
  rewrite !length_app, !length_fmap, length_app in Hperm.
  split.
  - rewrite Hp. destruct (pc s); simpl; lia.
  - rewrite Hp. lia.
Qed.

(** The loop is left exactly when the counter is 0. *)
Lemma loop_exit_iff_zero (s s' : State) :
  reachable a s → pc s = AtPoll → step a MainThread s = Some s' →
  (pc s' = AtJoin ↔ ThreadPool.pending_tasks (pool s) = 0).
Proof.
  intros Hreach Hpc Hstep.
  destruct (pending_is_created_less_completed s Hreach) as [Hpos _].
  simpl in Hstep. unfold main_step in Hstep. rewrite Hpc in Hstep.
  destruct (0 <? _) eqn:Hlt.
  - apply Z.ltb_lt in Hlt.
    destruct (ThreadPool.wait_for_task (pool s)) as [[task pool']|]; [|done].
    injection Hstep as <-.
    destruct (report_cases a task (set_pool pool' s))
      as [(e & _ & ->)|[(_ & _ & ->)|(st & _ & _ & ->)]]; simpl;
      (split; [done|lia]).
  - apply Z.ltb_ge in Hlt. injection Hstep as <-. simpl. split; [lia|done].
Qed.

(** Once the loop is left nothing is queued, running or waiting to be
    yielded. *)
Lemma drained_after_loop (s : State) :
  reachable a s → pc s = AtJoin ∨ (∃ c, pc s = Exited c) →
  ThreadPool.pending_tasks (pool s) = 0
  ∧ todo_items s = [] ∧ running s = [] ∧ done_items s = [].
Proof.
  intros Hreach Hpc.
  destruct (Inv_count_reachable a s Hreach) as (Hp & Hu & Hw & Hj & Hx).
  rewrite (Hj Hpc) in Hp.
  assert (Hbody : in_body (pc s) = 0) by (by destruct Hpc as [->|[c ->]]).
  rewrite Hbody in Hp.
  destruct (todo_items s); [|simpl in Hp; lia].
  destruct (running s); [|simpl in Hp; lia].
  destruct (done_items s); [|simpl in Hp; lia].
  split_and!; try done. by apply Hj.
Qed.

(** On a finite link graph, with at least one worker, some schedule takes
    the run to its exit. *)
Lemma run_reaches_exit (U : gset string) :
  0 < Args.threads a → link_closed a U →
  ∃ schedule s c, run a schedule = Some s ∧ pc s = Exited c.
Proof.
  intros Hthreads Hclosed.
  assert (Hexit : ∀ s, sn (step_rel a) s → reachable a s →
            ∃ s' c, reachable a s' ∧ pc s' = Exited c).
  { intros s Hsn. induction Hsn as [s _ IH]. intros Hreach.
    destruct (pc s) as [| | |c|] eqn:Hpc.
    4:{ by exists s, c. }
    all: destruct (progress a s Hthreads Hreach) as (th & s' & Hstep);
      [intros c; by rewrite Hpc|].
    all: apply (IH s'); [by exists th|by eapply reachable_step]. }
  destruct (Hexit (initial a)) as (s & c & Hreach & Hpc).
  { apply (no_infinite_run a U Hclosed). apply rtc_refl. }
  { apply rtc_refl. }
  destruct (reachable_run a s Hreach) as [schedule Hrun].
  by exists schedule, s, c.
Qed.


End Frontier.

Lemma example_graph_closed :
  @link_closed CPython example_site example_args example_graph.
Proof.
  split.
  - apply (bool_decide_unpack _). vm_compute. exact I.
  - intros u p l Hu Hl. unfold example_graph in Hu.
    rewrite !elem_of_union, !elem_of_singleton in Hu.
    destruct Hu as [[[[->| ->]| ->]| ->]| ->]; destruct p; vm_compute in Hl.
    all: repeat (apply elem_of_cons in Hl as [->|Hl]).
    all: try (by apply elem_of_nil in Hl).
    all: apply (bool_decide_unpack _); vm_compute; exact I.
Qed.


(** ** The exit status *)

Section ExitStatus.
Context `{!UrlLib, !Requests} (a : Args.t).


End ExitStatus.


(** ** The root *)

Section Root.
Context `{!UrlLib, !Requests} (a : Args.t).

(** Tasks are only created in the body of the loop, after a task was
    yielded. *)
Lemma nothing_added_before_first_yield (s : State) :
  reachable a s → yielded s = [] →
  added s = [seed_task a] ∧ ∀ rest, pc s ≠ InBody rest.
Proof.
  revert s.
  apply (reachable_ind a
           (λ s, yielded s = [] →
                 added s = [seed_task a] ∧ ∀ rest, pc s ≠ InBody rest)).
  { intros _. by split. }
  intros s th s' _ Hinv Hstep. revert Hinv. pattern s, s'. revert Hstep.
  apply step_elim; clear s s' th.
  - intros s _ _ Hinv Hy. split; [by apply Hinv|done].
  - intros s task rest _ _ _ _ Hy.
    match type of Hy with context [report a task ?s0] =>
      destruct (report_frame a task s0) as (_ & _ & _ & _ & _ & _ & _ & _ & Hy')
    end.
    rewrite Hy' in Hy. by apply app_eq_nil in Hy as [_ Hy].
  - intros s link rest Hpc Hinv Hy. exfalso.
    assert (Hs : yielded s = []).
    { destruct (visit_cases a link s)
        as [(_ & Hv)|[(_ & _ & Hv)|(_ & _ & b & p & _ & _ & _ & Hv)]];
        rewrite Hv in Hy; exact Hy. }
    destruct (Hinv Hs) as [_ Hbody]. by eapply Hbody.
  - intros s Hpc Hinv Hy. exfalso. destruct (Hinv Hy) as [_ Hbody].
    by eapply Hbody.
  - intros s _ _ Hinv Hy.
    destruct (finish_frame a s) as (_ & _ & _ & _ & Ha & Hy' & _ & _ & _ & _
                                    & _ & _ & _ & Hexit).
    rewrite Hy' in Hy. rewrite Ha, Hexit. split; [by apply Hinv|done].
  - intros s i task rest _ _ Hinv Hy. exact (Hinv Hy).
  - intros s i task _ Hinv Hy. exact (Hinv Hy).
  - intros s i _ Hinv Hy. exact (Hinv Hy).
Qed.


End Root.


(** ** The timeout *)

(** [main] hands [run] no timeout exactly when the option is not positive;
    [run] hands its timeout on to every task. *)
Lemma main_timeout (linesep : string) (options : Options.t) (args : Args.t) :
  main linesep options = inr args →
  Args.timeout args
  = (if 0 <? Options.timeout options then Some (Options.timeout options)
     else None).
Proof.
  unfold main. destruct (Options.threads options <? 1); [done|].
  by intros [= <-].
Qed.

(** C9, as the code has it.  The timeout handed to each task is absent
    exactly when the configured value is 0 or negative; for every positive
    configured value every task created carries that value. *)
Theorem timeout_absent_iff_not_positive `{!UrlLib, !Requests}
    (linesep : string) (options : Options.t) (args : Args.t) :
  main linesep options = inr args →
  ∀ s t, reachable args s → t ∈ added s →
    (LinkTask.timeout t = None ↔ Options.timeout options ≤ 0)
    ∧ (0 < Options.timeout options →
       LinkTask.timeout t = Some (Options.timeout options)).
Proof.
  intros Hmain s t Hreach Ht.
  destruct (Inv_hist_reachable args s Hreach) as (Hfresh & _).
  destruct (Hfresh t Ht) as (u & p & ->). simpl.
  rewrite (main_timeout _ _ _ Hmain).
  destruct (0 <? Options.timeout options) eqn:Hpos.
  - apply Z.ltb_lt in Hpos. split; [|done]. split; [done|lia].
  - apply Z.ltb_ge in Hpos. split; [done|lia].
Qed.

Lemma timeout_absent_iff_not_positive_witness :
  main line_feed (Options.mk "http://example.test/" check follow unix false
                    false false 2 10) = inr example_args
  ∧ Forall (λ t, LinkTask.timeout t = Some 10) (added example_outcome).
Proof.
  assert (Hmain : main line_feed
                    (Options.mk "http://example.test/" check follow unix false
                       false false 2 10) = inr example_args)
    by reflexivity.
  split; [exact Hmain|]. apply Forall_forall. intros t Ht.
  refine (proj2 (@timeout_absent_iff_not_positive CPython example_site _ _ _
                   Hmain example_outcome t
                   (@outcome_reachable CPython example_site example_args 100)
                   Ht) _).
  simpl. lia.
Defined.

(** A negative timeout is not 0, and the tasks get no timeout. *)
Lemma timeout_absent_for_negative_option :
  ¬ (∀ linesep options args,
       main linesep options = inr args →
       (Args.timeout args = None ↔ Options.timeout options = 0)).
Proof.
  intros Hclaim.
  specialize (Hclaim line_feed (example_options (-1)) _ eq_refl).
  simpl in Hclaim. destruct Hclaim as [Hzero _]. by specialize (Hzero eq_refl).
Qed.

(** ** Reports *)

Section Reports.
Context `{!UrlLib, !Requests} (a : Args.t).

(** What the loop body writes for a task that came back without error. *)
Lemma report_of_checked_task (task : LinkTask.t) (st : Z) (s : State) :
  LinkTask.exception task = None → LinkTask.status task = Some st →
  stdout (report a task s)
  = stdout s
    ++ (if decide ((400 ≤ st < 600) ∨ Args.print_all a = true)
        then [(pretty st +:+ ": " +:+ LinkTask.link task) +:+ Args.newline a]
        else [])
  ∧ st_error_link (report a task s)
    = st_error_link s + (if decide (400 ≤ st < 600) then 1 else 0).
Proof.
  intros He Hst.
  destruct (report_cases a task s)
    as [(e & He' & _)|[(_ & Hst' & _)|(st' & _ & Hst' & ->)]];
    [congruence|congruence|]. simpl.
  unfold report_lines, link_error, LinkTask.client_or_server_error.
  rewrite He, Hst.
  destruct (400 <=? st) eqn:Hlo; destruct (st <? 600) eqn:Hhi; simpl.
  all: try apply Z.leb_le in Hlo; try apply Z.leb_gt in Hlo.
  all: try apply Z.ltb_lt in Hhi; try apply Z.ltb_ge in Hhi.
  all: repeat case_decide; try lia; try done.
  all: destruct (Args.print_all a); try done; naive_solver lia.
Qed.

(** The root is missing: nothing but the root is ever checked. *)
Lemma missing_root_alone (response : Response) (s : State) :
  requests_get (Args.url a) (Args.timeout a) (Args.allow_redirects a)
  = inr response →
  LinkTask.client_or_server_error (status_code response) = true →
  reachable a s → added s = [seed_task a].
Proof.
  intros Hget Herr.
  assert (Hseed : LinkTask.run (seed_task a)
                  = LinkTask.mk (Args.url a) true (Args.timeout a)
                      (Args.allow_redirects a) []
                      (Some (status_code response)) None).
  { pose proof (run_fresh (Args.url a) true (Args.timeout a)
                  (Args.allow_redirects a)) as Hrun.
    rewrite Hget in Hrun. simpl in Hrun. rewrite Herr in Hrun. exact Hrun. }
  revert s.
  apply (reachable_ind a (λ s, added s = [seed_task a])); [done|].
  intros s th s' Hreach Hinv Hstep.
  destruct (Inv_hist_reachable a s Hreach) as (_ & _ & Hperm & _ & Hvisit).
  revert Hinv Hperm Hvisit. pattern s, s'. revert Hstep.
  apply step_elim; clear s s' th Hreach; try done.
  - intros s task rest _ _ _ Hinv _ _.
    match goal with |- context [report a task ?s0] =>
      destruct (report_frame a task s0) as (_ & _ & _ & _ & -> & _)
    end. done.
  - intros s link rest Hpc Hinv Hperm Hvisit. exfalso.
    destruct (Hvisit link) as (t & Ht & _ & Hl); [rewrite Hpc; by left|].
    assert (Hrun : t ∈ LinkTask.run <$> added s).
    { rewrite Hperm, !elem_of_app. by right; right. }
    rewrite Hinv in Hrun. simpl in Hrun.
    apply list_elem_of_singleton in Hrun as ->. rewrite Hseed in Hl.
    by apply elem_of_nil in Hl.
  - intros s _ _ Hinv _ _.
    destruct (finish_frame a s) as (_ & _ & _ & _ & -> & _). done.
Qed.

(** C8.  For a task that completed without error, a line with the status
    and the URL is written exactly when the status is in 400..599 or all
    statuses are to be printed, and the link-error counter goes up exactly
    when the status is in 400..599; nothing else is ever written to
    standard output.  If the root answers 404, the run ends with exactly
    one line, [404: ] and the root, one link error, no other task, and
    exit status 0, whether all statuses are printed or not. *)
Theorem report_iff_error_or_print_all :
  (∀ task st s,
     LinkTask.exception task = None → LinkTask.status task = Some st →
     stdout (report a task s)
     = stdout s
       ++ (if decide ((400 ≤ st < 600) ∨ Args.print_all a = true)
           then [(pretty st +:+ ": " +:+ LinkTask.link task) +:+ Args.newline a]
           else [])
     ∧ st_error_link (report a task s)
       = st_error_link s + (if decide (400 ≤ st < 600) then 1 else 0))
  ∧ (∀ s, reachable a s → stdout s = yielded s ≫= report_lines a)
  ∧ (∀ response s c,
       requests_get (Args.url a) (Args.timeout a) (Args.allow_redirects a)
       = inr response →
       status_code response = 404 →
       reachable a s → pc s = Exited c →
       stdout s = [("404: " +:+ Args.url a) +:+ Args.newline a]
       ∧ st_error_link s = 1
       ∧ added s = [seed_task a]
       ∧ c = 0).
Proof.
  split_and!.
  - apply report_of_checked_task.
  - intros s Hreach.
    by destruct (Inv_stats_reachable a s Hreach) as (_ & _ & _ & _ & _ & _ & ? & _).
  - intros response s c Hget H404 Hreach Hpc.
    assert (Herr : LinkTask.client_or_server_error (status_code response) = true)
      by (by rewrite H404).
    pose proof (missing_root_alone response s Hget Herr Hreach) as Hadded.
    destruct (exit_all_completed a s c Hreach Hpc) as (_ & _ & _ & Hall).
    rewrite Hadded in Hall. simpl in Hall.
    apply Permutation_singleton_r in Hall.
    pose proof (run_fresh (Args.url a) true (Args.timeout a)
                  (Args.allow_redirects a)) as Hrun.
    rewrite Hget in Hrun. simpl in Hrun. rewrite Herr in Hrun.
    unfold seed_task in Hall. rewrite Hrun in Hall.
    destruct (Inv_stats_reachable a s Hreach)
      as (_ & _ & _ & _ & Hel & Hst & Hout & _).
    destruct (Inv_count_reachable a s Hreach) as (_ & _ & _ & _ & Hx).
    destruct (Hx c Hpc) as [-> _].
    rewrite Hall in Hel, Hst, Hout. rewrite Hout, Hel, Hst, H404.
    unfold report_lines. simpl.
    split_and!; done.
Qed.

End Reports.

Lemma report_iff_error_or_print_all_witness :
  stdout missing_outcome = [("404: " +:+ "http://example.test/") +:+ line_feed]
  ∧ st_error_link missing_outcome = 1
  ∧ added missing_outcome = [seed_task missing_args]
  ∧ 0 = 0.
Proof.
  refine (proj2 (proj2 (@report_iff_error_or_print_all CPython missing_site
                          missing_args))
            (mkResponse 404 (Some "text/html") (inr [a_href "/"]))
            missing_outcome 0
            _ _ (@outcome_reachable CPython missing_site missing_args 20) _).
  - reflexivity.
  - reflexivity.
  - vm_compute. reflexivity.
Defined.

(** ** Link extraction and error capture *)

Section Extraction.
Context `{!UrlLib, !Requests}.

(** The strainer keeps the tags that the two loops look for. *)
Lemma find_all_strained (name attr : string) (tags : list Tag) :
  link_strainer name ∅ = true →
  find_all name attr (BeautifulSoup tags) = find_all name attr tags.
Proof.
  intros Hname. unfold find_all, BeautifulSoup.
  induction tags as [|tag tags IH]; [done|].
  rewrite (filter_cons _ tag tags).
  destruct (decide (link_strainer (tag_name tag) (tag_attrs tag) = true))
    as [Hkeep|Hdrop].
  - rewrite !filter_cons. rewrite IH. done.
  - rewrite IH. rewrite filter_cons.
    destruct (decide (tag_name tag = name ∧ is_Some (tag_attrs tag !! attr)))
      as [[<- _]|]; [|done].
    by destruct Hdrop.
Qed.


(** C5.  Whatever is raised in the body of [run], by the request, by
    reading and parsing the body or by resolving a link, is stored in the
    exception slot of the task and [run] returns; a timeout is stored as
    a timeout.  A worker that runs a task always gets to put it in the
    [done] queue, and the main thread takes a task with an exception as
    an error of the run, with a message of its own for timeouts. *)
Theorem task_errors_are_captured :
  (∀ t,
     match LinkTask.run_body t with
     | (t', inl e) => LinkTask.run t = LinkTask.set_exception e t'
     | (t', inr _) => LinkTask.run t = t'
     end)
  ∧ (∀ u p tmo ar e,
       requests_get u tmo ar = inl e →
       LinkTask.run (LinkTask.__init__ u p tmo ar)
       = LinkTask.mk u p tmo ar [] None (Some e))
  ∧ (∀ u p tmo ar,
       let t := LinkTask.run (LinkTask.__init__ u p tmo ar) in
       LinkTask.link t = u
       ∧ (is_Some (LinkTask.exception t) ∨ is_Some (LinkTask.status t)))
  ∧ (∀ a s i task,
       workers s !! i = Some (Worker.AtRun task) →
       ∃ s', step a (WorkerThread i) s = Some s'
             ∧ workers s' !! i = Some Worker.AtTaskDone
             ∧ done_items s' = done_items s ++ [LinkTask.run task])
  ∧ (∀ a task s e,
       LinkTask.exception task = Some e →
       let s' := report a task s in
       pc s' = InBody [] ∧ status s' = 1
       ∧ st_error_task s' = st_error_task s + 1
       ∧ stdout s' = stdout s
       ∧ stderr s'
         = stderr s
           ++ [errln (if isinstance_Timeout e
                      then LinkTask.link task +:+ " - timeout."
                      else LinkTask.link task +:+ " - " +:+ exc_str e +:+ ".")]).
Proof.
  split_and!.
  - intros t. unfold LinkTask.run.
    by destruct (LinkTask.run_body t) as [t' [e|[]]].
  - intros u p tmo ar e Hget. pose proof (run_fresh u p tmo ar) as Hrun.
    by rewrite Hget in Hrun.
  - intros u p tmo ar. simpl. split.
    + apply run_fresh_inputs.
    + apply run_fresh_outcome.
  - intros a s i task Hi. simpl. unfold worker_step. rewrite Hi. simpl.
    eexists. split; [reflexivity|]. unfold done_items. simpl.
    split; [|done]. apply list_lookup_insert_eq. by eapply lookup_lt_Some.
  - intros a task s e He. simpl.
    destruct (report_cases a task s)
      as [(e' & He' & ->)|[(He' & _)|(st & He' & _)]]; [|congruence|congruence].
    simpl. unfold error_lines. rewrite He. done.
Qed.

End Extraction.


Lemma task_errors_are_captured_witness :
  @requests_get example_site "http://other.test/" (Some 10) true
  = inl (Timeout "Read timed out.")
  ∧ @LinkTask.run CPython example_site
      (LinkTask.__init__ "http://other.test/" false (Some 10) true)
    = LinkTask.mk "http://other.test/" false (Some 10) true [] None
        (Some (Timeout "Read timed out.")).
Proof.
  split; [reflexivity|].
  exact (proj1 (proj2 (@task_errors_are_captured CPython example_site))
           "http://other.test/" false (Some 10) true (Timeout "Read timed out.")
           eq_refl).
Defined.

(** ** The network location in the URL library model *)

Section Netloc.
Import PyStr urllib_parse.

Lemma scheme_char_facts (c : ascii) :
  scheme_char c = true →
  unsafe_url_byte c = false ∧ Ascii.eqb c ":" = false.
Proof. destruct c as [[] [] [] [] [] [] [] []]; vm_compute; by intros. Qed.

Lemma alpha_not_stripped (c : ascii) :
  is_alpha c = true → c0_control_or_space c = false.
Proof. destruct c as [[] [] [] [] [] [] [] []]; vm_compute; by intros. Qed.

Lemma remove_chars_app (p : ascii → bool) (s1 s2 : string) :
  remove_chars p (s1 +:+ s2) = remove_chars p s1 +:+ remove_chars p s2.
Proof.
  induction s1 as [|c s1 IH]; [done|]. simpl.
  destruct (p c); simpl; by rewrite IH.
Qed.

Lemma remove_chars_none (p : ascii → bool) (s : string) :
  forall_chars (λ c, negb (p c)) s = true → remove_chars p s = s.
Proof.
  induction s as [|c s IH]; [done|]. simpl.
  intros [Hc Hs]%andb_true_iff. apply negb_true_iff in Hc.
  by rewrite Hc, IH.
Qed.

Lemma forall_chars_impl (p q : ascii → bool) (s : string) :
  (∀ c, p c = true → q c = true) →
  forall_chars p s = true → forall_chars q s = true.
Proof.
  intros Hpq. induction s as [|c s IH]; [done|]. simpl.
  intros [Hc Hs]%andb_true_iff. by rewrite (Hpq c Hc), IH.
Qed.

Lemma partition_app (d : ascii) (s1 s2 : string) :
  forall_chars (λ c, negb (Ascii.eqb c d)) s1 = true →
  partition d (s1 +:+ String d s2) = (s1, Some s2).
Proof.
  induction s1 as [|c s1 IH]; simpl.
  - intros _. by rewrite Ascii.eqb_refl.
  - intros [Hc Hs]%andb_true_iff. apply negb_true_iff in Hc.
    by rewrite Hc, IH.
Qed.

Lemma splitnetloc_from_app (auth rest : string) :
  forall_chars authority_char auth = true → path_like rest = true →
  splitnetloc_from (auth +:+ rest) = (auth, rest).
Proof.
  intros Hauth Hrest. induction auth as [|c auth IH]; simpl.
  - destruct rest as [|c rest]; [done|].
    unfold path_like in Hrest. simpl in Hrest.
    apply Ascii.eqb_eq in Hrest as ->. reflexivity.
  - simpl in Hauth. apply andb_true_iff in Hauth as [Hc Hauth].
    rewrite (IH Hauth).
    unfold authority_char in Hc. apply negb_true_iff in Hc.
    apply orb_false_iff in Hc as [Hc _]. by rewrite Hc.
Qed.

Lemma path_like_remove_chars (rest : string) :
  path_like rest = true → path_like (remove_chars unsafe_url_byte rest) = true.
Proof.
  destruct rest as [|c rest]; [done|]. unfold path_like. simpl.
  intros ->%Ascii.eqb_eq. reflexivity.
Qed.

Lemma urlparse_of_urlsplit (url sch : string) :
  ParseResult.scheme (urlparse url sch) = s_scheme (urlsplit url sch)
  ∧ ParseResult.netloc (urlparse url sch) = s_netloc (urlsplit url sch).
Proof.
  unfold urlparse.
  destruct (mem _ uses_params && _); [|done].
  by destruct (_splitparams _).
Qed.

Lemma urlsplit_scheme_netloc (sch auth rest : string) :
  scheme_like sch = true → forall_chars authority_char auth = true →
  path_like rest = true →
  let r := urlsplit (sch +:+ "://" +:+ auth +:+ rest) EmptyString in
  s_scheme r = lower sch ∧ s_netloc r = auth.
Proof.
  intros Hsch Hauth Hrest.
  unfold scheme_like in Hsch.
  apply andb_true_iff in Hsch as [[Hne Halpha]%andb_true_iff Hchars].
  assert (Hstrip : lstrip c0_control_or_space (sch +:+ "://" +:+ auth +:+ rest)
                   = sch +:+ "://" +:+ auth +:+ rest).
  { destruct sch as [|c sch]; [done|]. simpl in *.
    by rewrite (alpha_not_stripped c Halpha). }
  set (rest' := remove_chars unsafe_url_byte rest).
  assert (Hclean : remove_chars unsafe_url_byte (sch +:+ "://" +:+ auth +:+ rest)
                   = sch +:+ String ":" ("//" +:+ auth +:+ rest')).
  { rewrite remove_chars_app. rewrite (remove_chars_none _ sch).
    2:{ revert Hchars. apply forall_chars_impl. intros c Hc.
        by destruct (scheme_char_facts c Hc) as [-> _]. }
    f_equal. change ("://" +:+ auth +:+ rest)
      with (String ":" (String "/" (String "/" (auth +:+ rest)))).
    simpl. f_equal. f_equal. f_equal.
    rewrite remove_chars_app. rewrite (remove_chars_none _ auth); [done|].
    revert Hauth. apply forall_chars_impl. intros c Hc.
    unfold authority_char in Hc. apply negb_true_iff in Hc.
    apply orb_false_iff in Hc as [_ Hc]. by rewrite Hc. }
  assert (Hcolon : partition ":" (sch +:+ String ":" ("//" +:+ auth +:+ rest'))
                   = (sch, Some ("//" +:+ auth +:+ rest'))).
  { apply partition_app. revert Hchars. apply forall_chars_impl.
    intros c Hc. by destruct (scheme_char_facts c Hc) as [_ ->]. }
  assert (Hstart : startswith "//" ("//" +:+ auth +:+ rest') = true).
  { change ("//" +:+ auth +:+ rest')
      with (String "/" (String "/" (auth +:+ rest'))).
    unfold startswith. simpl. by destruct (auth +:+ rest'). }
  assert (Hsplit : _splitnetloc ("//" +:+ auth +:+ rest') = (auth, rest')).
  { change (_splitnetloc ("//" +:+ auth +:+ rest'))
      with (splitnetloc_from (auth +:+ rest')).
    apply splitnetloc_from_app; [done|]. by apply path_like_remove_chars. }
  unfold urlsplit. cbv zeta.
  rewrite Hstrip, Hclean, Hcolon, Hne, Halpha, Hchars.
  cbv beta iota delta [negb andb]. rewrite Hstart, Hsplit.
  by destruct (partition "#" rest') as [u1 [f|]];
    destruct (partition "?" u1) as [u2 [q|]].
Qed.

(** The scheme and the network location of [scheme://authority] followed
    by a path: the scheme in lower case, and the authority as it is. *)
Lemma urlparse_scheme_netloc (sch auth rest : string) :
  scheme_like sch = true → forall_chars authority_char auth = true →
  path_like rest = true →
  let r := urlparse (sch +:+ "://" +:+ auth +:+ rest) EmptyString in
  ParseResult.scheme r = lower sch ∧ ParseResult.netloc r = auth.
Proof.
  intros Hsch Hauth Hrest. simpl.
  destruct (urlparse_of_urlsplit (sch +:+ "://" +:+ auth +:+ rest) "")
    as [-> ->].
  by apply urlsplit_scheme_netloc.
Qed.

End Netloc.

(** ** Deduplication *)

Section Dedup.
Context `{!UrlLib, !Requests} (a : Args.t).

(** No two tasks are created for the same URL, and every task but the
    first is created for a URL without its fragment. *)
Lemma created_links_are_distinct (s : State) :
  reachable a s →
  NoDup (LinkTask.link <$> added s)
  ∧ ∃ rest, added s = seed_task a :: rest
            ∧ ∀ t, t ∈ rest → ∃ l, LinkTask.link t = urldefrag l.
Proof.
  intros Hreach.
  destruct (Inv_cache_reachable a s Hreach)
    as (_ & _ & (rest & Hadded & Hacc) & Hnodup & _).
  split; [done|]. exists rest. split; [done|]. intros t Ht.
  rewrite Forall_forall in Hacc. by destruct (Hacc t Ht) as [? _].
Qed.

(** When the root is given without a fragment, no two tasks are created
    for URLs that are the same without their fragments. *)
Lemma dedup_for_root_without_fragment (s : State) :
  urldefrag (Args.url a) = Args.url a →
  (∀ l, urldefrag (urldefrag l) = urldefrag l) →
  reachable a s →
  NoDup (urldefrag <$> (LinkTask.link <$> added s)).
Proof.
  intros Hroot Hidem Hreach.
  destruct (created_links_are_distinct s Hreach)
    as (Hnodup & rest & Hadded & Hrest).
  assert (Hid : urldefrag <$> (LinkTask.link <$> added s)
                = LinkTask.link <$> added s).
  { rewrite Hadded. simpl. rewrite Hroot. f_equal.
    clear Hadded Hnodup. induction rest as [|t rest IH]; [done|]. simpl.
    destruct (Hrest t) as [l Hl]; [by left|]. rewrite Hl at 1.
    rewrite Hidem, <- Hl. f_equal. apply IH.
    intros t' Ht'. apply Hrest. by right. }
  by rewrite Hid.
Qed.

End Dedup.

(** C1, where the code departs from it.  The root is
    [http://example.test/x#top] and its page links to [/x].  The run
    creates two tasks, one for the root as it was given and one for
    [http://example.test/x]: the same URL once the fragment is removed. *)
Theorem root_with_fragment_is_checked_twice :
  @reachable CPython fragment_site fragment_args fragment_outcome
  ∧ pc fragment_outcome = Exited 0
  ∧ LinkTask.link <$> added fragment_outcome
    = ["http://example.test/x#top"; "http://example.test/x"]
  ∧ LinkTask.link <$> yielded fragment_outcome
    = ["http://example.test/x#top"; "http://example.test/x"]
  ∧ @urldefrag CPython "http://example.test/x#top" = "http://example.test/x"
  ∧ @urldefrag CPython "http://example.test/x" = "http://example.test/x".
Proof.
  split; [apply outcome_reachable|].
  split_and!; vm_compute; reflexivity.
Qed.

(** ** Policies and classification *)

Section Policies.
Context `{!UrlLib, !Requests} (a : Args.t).

Lemma seed_is_internal : is_internal a (Args.url a) = true.
Proof. unfold is_internal. apply String.eqb_refl. Qed.


(** How the loop body classifies a link that is not in the link cache. *)
Lemma visit_classifies (s : State) (link : string) :
  reachable a s →
  let u := urldefrag link in
  let s' := visit a link s in
  let p := if is_internal a u then Args.internal a else Args.external a in
  u ∉ link_cache s →
  (http_or_https (ParseResult.scheme (urlparse u)) = true →
   st_total_internal s'
   = st_total_internal s
     + (if is_internal a u && negb (Policy_eqb p ignore) then 1 else 0)
   ∧ st_total_external s'
     = st_total_external s
       + (if negb (is_internal a u) && negb (Policy_eqb p ignore) then 1 else 0)
   ∧ added s'
     = added s
       ++ (if Policy_eqb p ignore then []
           else [LinkTask.__init__ u (Policy_eqb p follow) (Args.timeout a)
                                   (Args.allow_redirects a)]))
  ∧ (http_or_https (ParseResult.scheme (urlparse u)) = false →
     st_total_internal s' = st_total_internal s
     ∧ st_total_external s' = st_total_external s
     ∧ added s' = added s).
Proof.
  intros Hreach. simpl. intros Hnew.
  destruct (Inv_cache_reachable a s Hreach) as (Hn & _).
  assert (Hint : String.eqb (ParseResult.netloc (urlparse (urldefrag link)))
                   (netloc s) = is_internal a (urldefrag link)).
  { unfold is_internal. by rewrite Hn. }
  destruct (visit_cases a link s)
    as [(Hc & _)|[(_ & Hskip & ->)|(_ & Hhttp & b & p & Hb & Hp & Hnot & ->)]];
    [done| |].
  - rewrite Hint in Hskip. simpl. split.
    + intros Hhttp. destruct Hskip as [Hskip|Hskip]; [congruence|].
      rewrite Hskip. simpl. rewrite !andb_false_r, !Z.add_0_r, app_nil_r. done.
    + done.
  - rewrite Hint in Hb. subst b. simpl. split; [|congruence].
    intros _. rewrite <- Hp.
    assert (Hpe : Policy_eqb p ignore = false) by (by destruct p).
    rewrite Hpe. simpl. rewrite !andb_true_r.
    by destruct (is_internal a (urldefrag link)).
Qed.

End Policies.

(** C7, as the code has it.  A discovered link that is not yet in the link
    cache and whose scheme is http or https is classified internal exactly
    when its network location, as a string, is the network location of the
    root, and external otherwise: the counter of its class goes up and its
    task is created under the policy of its class, unless that policy is
    ignore.  A link with another scheme is neither.  In the URL library
    model, the network location of [scheme://authority] followed by a path
    is the authority, whatever the case of the scheme and whatever the
    path. *)
Theorem classified_by_network_location :
  (∀ (lib : UrlLib) (web : Requests) (a : Args.t) (s : State) (link : string),
     reachable a s →
     let u := urldefrag link in
     let s' := visit a link s in
     let p := if is_internal a u then Args.internal a else Args.external a in
     u ∉ link_cache s →
     (http_or_https (ParseResult.scheme (urlparse u)) = true →
      st_total_internal s'
      = st_total_internal s
        + (if is_internal a u && negb (Policy_eqb p ignore) then 1 else 0)
      ∧ st_total_external s'
        = st_total_external s
          + (if negb (is_internal a u) && negb (Policy_eqb p ignore) then 1 else 0)
      ∧ added s'
        = added s
          ++ (if Policy_eqb p ignore then []
              else [LinkTask.__init__ u (Policy_eqb p follow) (Args.timeout a)
                                      (Args.allow_redirects a)]))
     ∧ (http_or_https (ParseResult.scheme (urlparse u)) = false →
        st_total_internal s' = st_total_internal s
        ∧ st_total_external s' = st_total_external s
        ∧ added s' = added s))
  ∧ (∀ (a : Args.t) (sch auth rest : string),
       scheme_like sch = true →
       PyStr.forall_chars authority_char auth = true →
       path_like rest = true →
       ParseResult.scheme (@urlparse CPython (sch +:+ "://" +:+ auth +:+ rest))
       = PyStr.lower sch
       ∧ @is_internal CPython a (sch +:+ "://" +:+ auth +:+ rest)
         = String.eqb auth (ParseResult.netloc (@urlparse CPython (Args.url a)))).
Proof.
  split.
  - intros lib web a s link. apply visit_classifies.
  - intros a sch auth rest Hsch Hauth Hrest.
    destruct (urlparse_scheme_netloc sch auth rest Hsch Hauth Hrest)
      as [Hscheme Hnetloc].
    unfold is_internal. simpl. by rewrite Hscheme, Hnetloc.
Qed.



Lemma classified_by_network_location_witness :
  (@urldefrag CPython "HTTP://example.test/contact/"
   ∉ link_cache (@initial CPython example_args))
  ∧ st_total_internal
      (@visit CPython example_args "HTTP://example.test/contact/"
         (@initial CPython example_args)) = 2
  ∧ st_total_external
      (@visit CPython example_args "HTTP://example.test/contact/"
         (@initial CPython example_args)) = 0.
Proof.
  assert (Hnew : @urldefrag CPython "HTTP://example.test/contact/"
                 ∉ link_cache (@initial CPython example_args)).
  { apply (bool_decide_unpack _). vm_compute. exact I. }
  split; [exact Hnew|].
  destruct (proj1 (proj1 classified_by_network_location CPython example_site
                     example_args (@initial CPython example_args)
                     "HTTP://example.test/contact/" (rtc_refl _ _) Hnew)
              eq_refl) as (Hint & Hext & _).
  split; [exact Hint|exact Hext].
Defined.

(** A link to another port of the host of the root is classified external,
    and a link to an FTP server on another host is not classified at all. *)
Lemma same_host_is_not_always_internal :
  host_of "http://example.test:8080/admin" = host_of (Args.url example_args)
  ∧ st_total_internal
      (@visit CPython example_args "http://example.test:8080/admin"
         (@initial CPython example_args))
    = st_total_internal (@initial CPython example_args)
  ∧ st_total_external
      (@visit CPython example_args "http://example.test:8080/admin"
         (@initial CPython example_args))
    = st_total_external (@initial CPython example_args) + 1
  ∧ host_of "ftp://other.test/file" ≠ host_of (Args.url example_args)
  ∧ st_total_external
      (@visit CPython example_args "ftp://other.test/file"
         (@initial CPython example_args))
    = st_total_external (@initial CPython example_args)
  ∧ added
      (@visit CPython example_args "ftp://other.test/file"
         (@initial CPython example_args))
    = added (@initial CPython example_args).
Proof.
  split_and!; try (vm_compute; reflexivity).
  vm_compute. discriminate.
Qed.


(** * Further properties of the crawl *)

(** ** The set of tasks of a crawl *)

Section Crawled.
Context `{!UrlLib, !Requests} (a : Args.t).

(** Every task ever created is a task of the crawl. *)
Lemma added_are_crawled (s : State) :
  reachable a s → ∀ t, t ∈ added s → crawled a t.
Proof.
  revert s. apply (reachable_ind a (λ s, ∀ t, t ∈ added s → crawled a t)).
  { intros t ->%list_elem_of_singleton. constructor. }
  intros s th s' Hreach Hinv Hstep.
  destruct (Inv_hist_reachable a s Hreach) as (Hfresh & _ & Hperm & _ & Hvisit).
  destruct (Inv_cache_reachable a s Hreach) as (Hn & Hurl & _).
  revert Hinv Hfresh Hperm Hvisit Hn Hurl. pattern s, s'. revert Hstep.
  apply step_elim; clear s s' th Hreach; try done.
  - intros s task rest _ _ _ Hinv _ _ _ _ _.
    match goal with |- context [report a task ?s0] =>
      destruct (report_frame a task s0) as (_ & _ & _ & _ & -> & _)
    end. done.
  - intros s link rest Hpc Hinv Hfresh Hperm Hvisit Hn Hurl.
    destruct (visit_cases a link s)
      as [(Hc & ->)|[(Hc & _ & ->)|(Hc & Hhttp & b & p & Hb & Hp & Hnot & ->)]];
      [done|done|]. simpl.
    intros t [Ht| ->%list_elem_of_singleton]%elem_of_app; [by apply Hinv|].
    destruct (Hvisit link) as (t0 & Ht0 & He & Hl); [rewrite Hpc; by left|].
    assert (Hrun : t0 ∈ LinkTask.run <$> added s).
    { rewrite Hperm, !elem_of_app. by right; right. }
    apply list_elem_of_fmap in Hrun as (t1 & -> & Ht1).
    assert (Hpol : policy_of a (urldefrag link) = p).
    { unfold policy_of, is_internal. by rewrite <- Hn, Hb, Hp. }
    rewrite <- Hpol. apply (crawled_link a t1 link); try done.
    + by apply Hinv.
    + intros Heq. apply Hc. by rewrite Heq.
    + by rewrite Hpol.
  - intros s _ _ Hinv _ _ _ _ _.
    destruct (finish_frame a s) as (_ & _ & _ & _ & -> & _). done.
Qed.

(** At the exit every task of the crawl was created. *)
Lemma crawled_are_added (s : State) (c : Z) :
  reachable a s → pc s = Exited c → ∀ t, crawled a t → t ∈ added s.
Proof.
  intros Hreach Hpc.
  destruct (Inv_hist_reachable a s Hreach) as (Hfresh & _).
  destruct (Inv_cache_reachable a s Hreach)
    as (_ & _ & (rest & Hadded & Hacc) & _ & _ & Hcomplete).
  pose proof (Inv_seen_reachable a s Hreach) as Hseen.
  destruct (exit_all_completed a s c Hreach Hpc) as (_ & _ & _ & Hall).
  rewrite Forall_forall in Hacc.
  intros t Ht. induction Ht as [|t l _ IH He Hl Hroot Hhttp Hpol].
  - rewrite Hadded. by left.
  - assert (Hy : LinkTask.run t ∈ yielded s).
    { rewrite Hall. by apply list_elem_of_fmap_2. }
    destruct (Hseen _ l Hy He Hl) as [Hv|Hc];
      [rewrite Hpc in Hv; by apply elem_of_nil in Hv|].
    destruct (Hcomplete _ Hc Hhttp Hpol) as (t' & Ht' & Hlink).
    assert (Hrest : t' ∈ rest).
    { rewrite Hadded in Ht'. apply elem_of_cons in Ht' as [->|Ht']; [|done].
      by destruct Hroot. }
    destruct (Hacc t' Hrest) as (_ & _ & _ & Hparse).
    destruct (Hfresh t' Ht') as (u & p & ->). simpl in *. by subst.
Qed.

(** X1.  The tasks a run creates are tasks of the crawl, and a run that
    has exited has created all of them: which URLs are checked, and which
    of them are parsed for links, is decided by the pages, the policies and
    the root alone. *)
Theorem run_checks_what_is_crawled (s : State) :
  reachable a s →
  (∀ t, t ∈ added s → crawled a t)
  ∧ (∀ c, pc s = Exited c → ∀ t, crawled a t → t ∈ added s).
Proof.
  intros Hreach. split.
  - by apply added_are_crawled.
  - intros c Hpc. by apply crawled_are_added with c.
Qed.

(** The same task is not created twice. *)
Lemma added_NoDup (s : State) : reachable a s → NoDup (added s).
Proof.
  intros Hreach.
  destruct (Inv_cache_reachable a s Hreach) as (_ & _ & _ & Hnodup & _).
  by eapply NoDup_fmap_1.
Qed.

(** X2.  Two runs of the same crawl that have exited, under whatever
    schedules, created the same tasks and completed them with the same
    results, up to their order; their exit statuses and their five
    counters are equal and their report lines are the same up to order. *)
Theorem result_independent_of_schedule (s1 s2 : State) (c1 c2 : Z) :
  reachable a s1 → pc s1 = Exited c1 →
  reachable a s2 → pc s2 = Exited c2 →
  added s1 ≡ₚ added s2
  ∧ yielded s1 ≡ₚ yielded s2
  ∧ c1 = c2
  ∧ st_total_links s1 = st_total_links s2
  ∧ st_total_internal s1 = st_total_internal s2
  ∧ st_total_external s1 = st_total_external s2
  ∧ st_error_task s1 = st_error_task s2
  ∧ st_error_link s1 = st_error_link s2
  ∧ stdout s1 ≡ₚ stdout s2.
Proof.
  intros Hr1 Hp1 Hr2 Hp2.
  assert (Hadded : added s1 ≡ₚ added s2).
  { apply NoDup_Permutation; [by apply added_NoDup|by apply added_NoDup|].
    intros t. split; intros Ht.
    - apply (crawled_are_added s2 c2 Hr2 Hp2). by apply (added_are_crawled s1).
    - apply (crawled_are_added s1 c1 Hr1 Hp1). by apply (added_are_crawled s2). }
  assert (Hyielded : yielded s1 ≡ₚ yielded s2).
  { destruct (exit_all_completed a s1 c1 Hr1 Hp1) as (_ & _ & _ & ->).
    destruct (exit_all_completed a s2 c2 Hr2 Hp2) as (_ & _ & _ & ->).
    by rewrite Hadded. }
  destruct (Inv_stats_reachable a s1 Hr1)
    as (Hl1 & Hi1 & He1 & Het1 & Hel1 & Hst1 & Hout1 & _).
  destruct (Inv_stats_reachable a s2 Hr2)
    as (Hl2 & Hi2 & He2 & Het2 & Hel2 & Hst2 & Hout2 & _).
  destruct (Inv_count_reachable a s1 Hr1) as (_ & _ & _ & _ & Hx1).
  destruct (Inv_count_reachable a s2 Hr2) as (_ & _ & _ & _ & Hx2).
  destruct (Hx1 c1 Hp1) as [-> _]. destruct (Hx2 c2 Hp2) as [-> _].
  split_and!; try done.
  - rewrite Hst1, Hst2.
    destruct (decide (Exists failed (yielded s1))) as [Hf1|Hf1];
      destruct (decide (Exists failed (yielded s2))) as [Hf2|Hf2]; try done.
    + destruct Hf2. by rewrite <- Hyielded.
    + destruct Hf1. by rewrite Hyielded.
  - by rewrite Hl1, Hl2, Hadded.
  - by rewrite Hi1, Hi2, Hadded.
  - by rewrite He1, He2, Hadded.
  - by rewrite Het1, Het2, Hyielded.
  - by rewrite Hel1, Hel2, Hyielded.
  - by rewrite Hout1, Hout2, Hyielded.
Qed.

End Crawled.

Lemma example_outcome_swapped_reachable :
  @reachable CPython example_site example_args example_outcome_swapped.
Proof.
  unfold example_outcome_swapped.
  destruct (@run CPython example_site example_args _) as [s|] eqn:Hrun; simpl.
  - by eapply run_reachable.
  - apply rtc_refl.
Qed.

Lemma run_checks_what_is_crawled_witness :
  @reachable CPython example_site example_args example_outcome
  ∧ Forall (@crawled CPython example_site example_args) (added example_outcome).
Proof.
  pose proof (@outcome_reachable CPython example_site example_args 100) as Hreach.
  split; [exact Hreach|]. apply Forall_forall.
  exact (proj1 (@run_checks_what_is_crawled CPython example_site example_args
                  example_outcome Hreach)).
Defined.

Lemma result_independent_of_schedule_witness :
  pc example_outcome = Exited 1
  ∧ pc example_outcome_swapped = Exited 1
  ∧ LinkTask.link <$> yielded example_outcome
    ≠ LinkTask.link <$> yielded example_outcome_swapped
  ∧ yielded example_outcome ≡ₚ yielded example_outcome_swapped
  ∧ stdout example_outcome ≡ₚ stdout example_outcome_swapped.
Proof.
  assert (H1 : pc example_outcome = Exited 1) by (vm_compute; reflexivity).
  assert (H2 : pc example_outcome_swapped = Exited 1)
    by (vm_compute; reflexivity).
  split; [exact H1|]. split; [exact H2|].
  split; [vm_compute; discriminate|].
  destruct (@result_independent_of_schedule CPython example_site example_args
              example_outcome example_outcome_swapped 1 1
              (@outcome_reachable CPython example_site example_args 100) H1
              example_outcome_swapped_reachable H2)
    as (_ & Hy & _ & _ & _ & _ & _ & _ & Hout).
  split; [exact Hy|exact Hout].
Defined.

(** ** Counters, queues and output *)

Section Accounting.
Context `{!UrlLib, !Requests} (a : Args.t).

Lemma length_filter_split {A} (f : A → bool) (l : list A) :
  (length (filter (λ x, f x = true) l) + length (filter (λ x, f x = false) l)
   = length l)%nat.
Proof.
  induction l as [|x l IH]; [done|]. rewrite !filter_cons.
  destruct (f x); simpl; lia.
Qed.

Lemma length_filter_disjoint {A} (P Q : A → Prop) `{!∀ x, Decision (P x)}
    `{!∀ x, Decision (Q x)} (l : list A) :
  (∀ x, P x → Q x → False) →
  (length (filter P l) + length (filter Q l) ≤ length l)%nat.
Proof.
  intros Hdisjoint. induction l as [|x l IH]; [done|]. rewrite !filter_cons.
  destruct (decide (P x)) as [Hp|]; destruct (decide (Q x)) as [Hq|]; simpl;
    try lia.
  by destruct (Hdisjoint x).
Qed.

(** X3.  The counters of the statistics count what they say: the total is
    the number of tasks created and the sum of the internal and external
    counts, which count the tasks by the network location of their URL;
    the two error counters never add up to more than the number of tasks
    yielded, and when the run has exited they count the created tasks whose
    run captured an exception and those that ran into a status in
    400..599. *)
Theorem counters_count_tasks (s : State) :
  reachable a s →
  st_total_links s = Z.of_nat (length (added s))
  ∧ st_total_links s = st_total_internal s + st_total_external s
  ∧ st_total_internal s
    = Z.of_nat (length (filter (λ t, is_internal a (LinkTask.link t) = true)
                          (added s)))
  ∧ 0 ≤ st_error_task s ∧ 0 ≤ st_error_link s
  ∧ st_error_task s + st_error_link s ≤ Z.of_nat (length (yielded s))
  ∧ (∀ c, pc s = Exited c →
       st_error_task s
       = Z.of_nat (length (filter failed (LinkTask.run <$> added s)))
       ∧ st_error_link s
         = Z.of_nat (length (filter (λ t, link_error t = true)
                               (LinkTask.run <$> added s)))).
Proof.
  intros Hreach.
  destruct (Inv_stats_reachable a s Hreach)
    as (Hl & Hi & He & Het & Hel & _).
  pose proof (length_filter_split (λ t, is_internal a (LinkTask.link t))
                (added s)) as Hsplit.
  cbv beta in Hsplit.
  assert (Hdis : (length (filter failed (yielded s))
                  + length (filter (λ t, link_error t = true) (yielded s))
                  ≤ length (yielded s))%nat).
  { apply length_filter_disjoint. intros t [e Hf]. unfold link_error.
    by rewrite Hf. }
  split_and!; try done; try lia.
  intros c Hpc.
  destruct (exit_all_completed a s c Hreach Hpc) as (_ & _ & _ & Hall).
  by rewrite Het, Hel, Hall.
Qed.

(** X4.  No task is lost and none is duplicated: at every moment the tasks
    created are, once run, the tasks still queued or held by a worker, the
    tasks waiting in the [done] queue and the tasks yielded; the tasks
    queued or held were not run yet; when the run has exited every task
    created was run and yielded, once. *)
Theorem tasks_are_conserved (s : State) :
  reachable a s →
  LinkTask.run <$> added s
  ≡ₚ (LinkTask.run <$> (todo_items s ++ running s)) ++ done_items s ++ yielded s
  ∧ (∀ t, t ∈ todo_items s ++ running s →
       t ∈ added s ∧ LinkTask.links t = [] ∧ LinkTask.status t = None
       ∧ LinkTask.exception t = None)
  ∧ (∀ c, pc s = Exited c → yielded s ≡ₚ LinkTask.run <$> added s).
Proof.
  intros Hreach.
  destruct (Inv_hist_reachable a s Hreach) as (Hfresh & Hqueued & Hperm & _).
  split_and!; [done| |].
  - intros t Ht. specialize (Hqueued t Ht). split; [done|].
    by destruct (Hfresh t Hqueued) as (u & p & ->).
  - intros c Hpc. by destruct (exit_all_completed a s c Hreach Hpc) as (_ & _ & _ & ?).
Qed.

Lemma completed_have_status (s : State) (t : LinkTask.t) :
  reachable a s → t ∈ done_items s ++ yielded s →
  LinkTask.exception t = None → is_Some (LinkTask.status t).
Proof.
  intros Hreach Ht He.
  destruct (yielded_is_run a s t Hreach Ht) as (u & p & _ & ->).
  destruct (run_fresh_outcome u p (Args.timeout a) (Args.allow_redirects a))
    as [[e Hf]|Hst]; [congruence|done].
Qed.


(** X6.  No two tasks are created with the same URL, the URL of every task
    is in the link cache, and every task but the first has a URL with
    scheme http or https that is a discovered link without its fragment:
    no request is ever made for a link with another scheme. *)
Theorem tasks_have_distinct_http_urls (s : State) :
  reachable a s →
  NoDup (LinkTask.link <$> added s)
  ∧ (∀ t, t ∈ added s → LinkTask.link t ∈ link_cache s)
  ∧ ∃ rest,
      added s = seed_task a :: rest
      ∧ ∀ t, t ∈ rest →
             http_or_https (ParseResult.scheme (urlparse (LinkTask.link t)))
             = true
             ∧ ∃ t0 l, crawled a t0
                       ∧ l ∈ LinkTask.links (LinkTask.run t0)
                       ∧ LinkTask.link t = urldefrag l.
Proof.
  intros Hreach.
  destruct (Inv_cache_reachable a s Hreach)
    as (_ & _ & (rest & Hadded & Hacc) & Hnodup & Hin & _).
  split_and!; [done|done|]. exists rest. split; [done|].
  intros t Ht. rewrite Forall_forall in Hacc.
  destruct (Hacc t Ht) as (_ & Hhttp & _). split; [done|].
  assert (Hc : crawled a t).
  { apply (added_are_crawled a s Hreach). rewrite Hadded. by right. }
  assert (Hne : LinkTask.link t ≠ Args.url a).
  { rewrite Hadded in Hnodup. simpl in Hnodup.
    apply NoDup_cons in Hnodup as [Hnot _]. intros Heq. apply Hnot.
    rewrite <- Heq. by apply list_elem_of_fmap_2. }
  destruct Hc as [|t0 l Ht0 _ Hl _ _ _]; [done|]. by exists t0, l.
Qed.

(** X7.  The policy of a link decides its task: no task is created for a
    link whose policy is ignore, and a task other than the first has link
    extraction on exactly when the policy of its URL, the internal policy
    if the URL has the network location of the root and the external policy
    if not, is follow; under check a link is only checked. *)
Theorem policy_decides_extraction (s : State) :
  reachable a s →
  ∃ rest,
    added s = seed_task a :: rest
    ∧ ∀ t, t ∈ rest →
           (if is_internal a (LinkTask.link t) then Args.internal a
            else Args.external a) ≠ ignore
           ∧ (LinkTask.parse_links t = true
              ↔ (if is_internal a (LinkTask.link t) then Args.internal a
                 else Args.external a) = follow).
Proof.
  intros Hreach.
  destruct (Inv_cache_reachable a s Hreach)
    as (_ & _ & (rest & Hadded & Hacc) & _).
  exists rest. split; [done|]. intros t Ht. rewrite Forall_forall in Hacc.
  destruct (Hacc t Ht) as (_ & _ & Hpol & Hparse). unfold policy_of in *.
  split; [done|]. rewrite Hparse.
  by destruct (if is_internal a (LinkTask.link t) then _ else _).
Qed.

(** A task without link extraction finds no links. *)
Lemma check_only_finds_no_links (u : string) (tmo : option Z) (ar : bool) :
  LinkTask.links (LinkTask.run (LinkTask.__init__ u false tmo ar)) = [].
Proof.
  pose proof (run_fresh u false tmo ar) as Hrun.
  destruct (requests_get u tmo ar) as [e|response]; [by rewrite Hrun|].
  simpl in Hrun. by rewrite Hrun.
Qed.

Lemma no_follow_depth_one (s : State) :
  Args.internal a ≠ follow → Args.external a ≠ follow →
  reachable a s →
  ∀ t, t ∈ added s →
       t = seed_task a
       ∨ (LinkTask.parse_links t = false
          ∧ LinkTask.exception (LinkTask.run (seed_task a)) = None
          ∧ ∃ l, l ∈ LinkTask.links (LinkTask.run (seed_task a))
                 ∧ LinkTask.link t = urldefrag l).
Proof.
  intros Hint Hext Hreach t Ht.
  pose proof (added_are_crawled a s Hreach t Ht) as Hc.
  assert (Hnofollow : ∀ u, Policy_eqb (policy_of a u) follow = false).
  { intros u. unfold policy_of.
    destruct (is_internal a u); [by destruct (Args.internal a)|
                                 by destruct (Args.external a)]. }
  induction Hc as [|t0 l Ht0 IH He Hl Hroot Hhttp Hpol]; [by left|].
  right. rewrite Hnofollow. simpl.
  destruct Ht0 as [|t1 l1 _ _ _ _ _ _].
  - split; [done|]. split; [done|]. by exists l.
  - rewrite Hnofollow in Hl. rewrite check_only_finds_no_links in Hl.
    by apply elem_of_nil in Hl.
Qed.

(** X8.  Without a follow policy the crawl has depth one: every task is
    the task for the root or the task, without link extraction, for a link
    on the page of the root. *)
Theorem depth_one_without_follow (s : State) :
  Args.internal a ≠ follow → Args.external a ≠ follow →
  reachable a s →
  ∀ t, t ∈ added s →
       t = seed_task a
       ∨ (LinkTask.parse_links t = false
          ∧ LinkTask.exception (LinkTask.run (seed_task a)) = None
          ∧ ∃ l, l ∈ LinkTask.links (LinkTask.run (seed_task a))
                 ∧ LinkTask.link t = urldefrag l).
Proof. apply no_follow_depth_one. Qed.

Lemma workers_hold_at_most_one (ws : list Worker.t) :
  (length (ws ≫= held) + sum_list_with is_acking ws ≤ length ws)%nat.
Proof.
  induction ws as [|w ws IH]; [done|].
  rewrite bind_cons, length_app. change (sum_list_with is_acking (w :: ws))
    with (is_acking w + sum_list_with is_acking ws)%nat.
  change (length (w :: ws)) with (S (length ws)).
  destruct w; simpl; lia.
Qed.

(** X9.  At most as many tasks are in the hands of the workers as there
    are worker threads, and there are as many worker threads as [threads]
    says, none if it is not positive. *)
Theorem at_most_threads_tasks_running (s : State) :
  reachable a s →
  length (workers s) = Z.to_nat (Args.threads a)
  ∧ Z.of_nat (length (running s) + acking s) ≤ Z.max 0 (Args.threads a).
Proof.
  intros Hreach.
  destruct (Inv_count_reachable a s Hreach) as (_ & _ & Hw & _).
  split; [done|].
  pose proof (workers_hold_at_most_one (workers s)) as Hle.
  unfold running, acking. lia.
Qed.

(** X10.  With no worker thread the run hangs at its first wait for a
    completed task: no thread can ever move and the exit is never
    reached. *)
Theorem no_worker_no_exit (s : State) :
  Args.threads a ≤ 0 → reachable a s →
  s = initial a ∧ nf (step_rel a) s ∧ ∀ c, pc s ≠ Exited c.
Proof.
  intros Hthreads.
  assert (Hstuck : ∀ th s', step a th (initial a) = Some s' → False).
  { intros th s' Hstep. destruct th as [|i]; simpl in Hstep.
    - by vm_compute in Hstep.
    - unfold worker_step, initial, ThreadPool.start in Hstep. simpl in Hstep.
      replace (Z.to_nat (Args.threads a)) with 0%nat in Hstep by lia.
      done. }
  intros Hreach.
  assert (Hinit : s = initial a).
  { revert s Hreach. apply (reachable_ind a (λ s, s = initial a)); [done|].
    intros s th s' _ -> Hstep. by destruct (Hstuck th s'). }
  subst s. split_and!; [done| |done].
  intros [s' [th Hstep]]. by destruct (Hstuck th s').
Qed.

(** X11.  What the run writes to standard error: one line for every task
    that came back with an exception, in the order in which the tasks were
    yielded, and, when the run has exited and is not quiet, the three lines
    of the statistics after them, with the number of tasks created as the
    total. *)
Theorem stderr_is_errors_then_summary (s : State) :
  reachable a s →
  Z.of_nat (length (yielded s ≫= error_lines)) = st_error_task s
  ∧ ((∀ c, pc s ≠ Exited c) → stderr s = yielded s ≫= error_lines)
  ∧ (∀ c, pc s = Exited c →
       stderr s
       = (yielded s ≫= error_lines)
         ++ (if Args.quiet a then []
             else [print_checked (Z.of_nat (length (added s)));
                   print_scopes (st_total_internal s) (st_total_external s);
                   print_errors (st_error_task s) (st_error_link s)])).
Proof.
  intros Hreach.
  destruct (Inv_stats_reachable a s Hreach)
    as (Hl & _ & _ & Het & _ & _ & _ & Herr).
  split_and!.
  - rewrite Het. f_equal. clear.
    induction (yielded s) as [|t l IH]; [done|].
    rewrite bind_cons, length_app, filter_cons, IH.
    destruct (decide (failed t)) as [[e He]|Hn]; unfold error_lines.
    + by rewrite He.
    + destruct (LinkTask.exception t) as [e|] eqn:He; [|done].
      destruct Hn. by exists e.
  - intros Hpc. rewrite Herr, (summary_running a s Hpc). by rewrite app_nil_r.
  - intros c Hpc. rewrite Herr. unfold summary. rewrite Hpc, Hl. done.
Qed.

(** X12.  The number of report lines: the link-error count when only
    errors are printed, and the number of tasks that came back without an
    exception when all statuses are printed. *)
Theorem stdout_line_count (s : State) :
  reachable a s →
  Z.of_nat (length (stdout s))
  = if Args.print_all a
    then Z.of_nat (length (yielded s)) - st_error_task s
    else st_error_link s.
Proof.
  intros Hreach.
  destruct (Inv_stats_reachable a s Hreach)
    as (_ & _ & _ & Het & Hel & _ & Hout & _).
  assert (Hy : ∀ t, t ∈ yielded s → LinkTask.exception t = None →
                    is_Some (LinkTask.status t)).
  { intros t Ht. apply (completed_have_status s t Hreach).
    apply elem_of_app. by right. }
  rewrite Hout, Het, Hel. clear Hout Het Hel.
  induction (yielded s) as [|t l IH].
  { by destruct (Args.print_all a). }
  rewrite bind_cons, length_app, !filter_cons.
  assert (IH' := IH (λ t' Ht', Hy t' (list_elem_of_further _ _ _ Ht'))).
  rewrite length_cons.
  specialize (Hy t (list_elem_of_here _ _)).
  set (n1 := length (l ≫= report_lines a)) in *.
  set (n2 := filter failed l) in *.
  set (n3 := filter (λ t, link_error t = true) l) in *.
  unfold report_lines, link_error.
  destruct (decide (failed t)) as [[e He]|Hn].
  - rewrite He. destruct (decide (false = true)); [done|].
    destruct (Args.print_all a); simpl in *; lia.
  - destruct (LinkTask.exception t) as [e|] eqn:He; [destruct Hn; by exists e|].
    destruct (Hy eq_refl) as [st Hst]. rewrite Hst.
    destruct (LinkTask.client_or_server_error st); simpl.
    + destruct (decide (true = true)); [|done].
      destruct (Args.print_all a); simpl in *; lia.
    + destruct (decide (false = true)); [done|].
      destruct (Args.print_all a); simpl in *; lia.
Qed.

Lemma one_worker_fifo (s : State) :
  Args.threads a = 1 → reachable a s →
  LinkTask.run <$> added s
  = yielded s ++ done_items s ++ (LinkTask.run <$> (running s ++ todo_items s))
  ∧ (∀ c, pc s = Exited c →
       yielded s = LinkTask.run <$> added s
       ∧ stdout s = (LinkTask.run <$> added s) ≫= report_lines a).
Proof.
  intros Hone Hreach.
  assert (Hfifo : LinkTask.run <$> added s
                  = yielded s ++ done_items s
                    ++ (LinkTask.run <$> (running s ++ todo_items s))).
  { revert s Hreach.
    apply (reachable_ind a
             (λ s, LinkTask.run <$> added s
                   = yielded s ++ done_items s
                     ++ (LinkTask.run <$> (running s ++ todo_items s)))).
    { rewrite running_initial. done. }
    intros s th s' Hreach Hinv Hstep.
    destruct (Inv_count_reachable a s Hreach) as (_ & _ & Hw & _).
    rewrite Hone in Hw.
    destruct (Inv_hist_reachable a s' (reachable_step a s s' th Hreach Hstep))
      as (_ & _ & _ & Hpc' & _).
    revert Hinv Hw Hpc'. pattern s, s'. revert Hstep.
    apply step_elim; clear s s' th Hreach; try done.
    - intros s task rest _ _ Hdone Hinv _ Hpc'.
      match type of Hpc' with context [report a task ?s0] =>
        destruct (report_cases a task s0)
          as [(e & _ & Hr)|[(_ & _ & Hr)|(st & _ & _ & Hr)]];
        rewrite Hr in *; clear Hr
      end.
      + unfold todo_items, done_items, running in *. simpl in *.
        rewrite Hinv, Hdone. by rewrite <- !(assoc_L (++)).
      + by destruct (Hpc' (OtherError "TypeError" "unorderable types")).
      + unfold todo_items, done_items, running in *. simpl in *.
        rewrite Hinv, Hdone. by rewrite <- !(assoc_L (++)).
    - intros s link rest _ Hinv _ _.
      destruct (visit_cases a link s)
        as [(_ & ->)|[(_ & _ & ->)|(_ & _ & b & p & _ & _ & _ & ->)]];
        [done|done|].
      unfold todo_items, done_items, running in *. simpl in *.
      rewrite !fmap_app, Hinv, !fmap_app. simpl.
      by rewrite <- !(assoc_L (++)).
    - intros s _ _ Hinv _ _.
      destruct (finish_frame a s) as (Hp & Hws & _ & _ & Ha & Hy & _).
      unfold todo_items, done_items, running in *. by rewrite Hp, Hws, Ha, Hy.
    - intros s i task rest Hi Htodo Hinv Hw _.
      destruct (workers s) as [|w [|w' ws]] eqn:Hws; try done.
      destruct i as [|i]; [|done]. simpl in Hi. injection Hi as ->.
      unfold todo_items, done_items, running in *. simpl in *.
      rewrite Hws in Hinv. simpl in *. by rewrite Hinv, Htodo.
    - intros s i task Hi Hinv Hw _.
      destruct (workers s) as [|w [|w' ws]] eqn:Hws; try done.
      destruct i as [|i]; [|done]. simpl in Hi. injection Hi as ->.
      unfold todo_items, done_items, running in *. simpl in *.
      rewrite Hws in Hinv. simpl in *. rewrite Hinv.
      by rewrite <- !(assoc_L (++)).
    - intros s i Hi Hinv Hw _.
      destruct (workers s) as [|w [|w' ws]] eqn:Hws; try done.
      destruct i as [|i]; [|done]. simpl in Hi. injection Hi as ->.
      unfold todo_items, done_items, running in *. simpl in *.
      rewrite Hws in Hinv. simpl in *. by rewrite Hinv. }
  split; [done|]. intros c Hpc.
  destruct (exit_all_completed a s c Hreach Hpc) as (Ht & Hr & Hd & _).
  rewrite Ht, Hr, Hd in Hfifo. simpl in Hfifo. rewrite app_nil_r in Hfifo.
  destruct (Inv_stats_reachable a s Hreach) as (_ & _ & _ & _ & _ & _ & Hout & _).
  by rewrite Hout, Hfifo.
Qed.

(** X13.  With one worker thread the tasks are run and yielded in the
    order in which they were created: at every moment the tasks created
    are, in this order, the tasks yielded, the tasks in the [done] queue,
    the task the worker holds and the tasks in the [todo] queue; so when
    the run has exited the report lines are in the order of creation. *)
Theorem one_worker_is_first_in_first_out (s : State) :
  Args.threads a = 1 → reachable a s →
  LinkTask.run <$> added s
  = yielded s ++ done_items s ++ (LinkTask.run <$> (running s ++ todo_items s))
  ∧ (∀ c, pc s = Exited c →
       yielded s = LinkTask.run <$> added s
       ∧ stdout s = (LinkTask.run <$> added s) ≫= report_lines a).
Proof. apply one_worker_fifo. Qed.

End Accounting.

(** ** Tasks and bodies *)

Section Bodies.
Context `{!UrlLib, !Requests}.



End Bodies.

(** ** From the command line to the run *)

Section CommandLine.
Context `{!UrlLib, !Requests}.


(** X17.  With the default options, one thread and both policies check, a
    run that has exited has checked the root and the links on its page and
    nothing else, none of them parsed for links but the root, and has
    yielded them in the order in which it created them. *)
Theorem default_options_check_one_page (linesep url : string) :
  ∃ args,
    main linesep (default_options url) = inr args
    ∧ Args.threads args = 1 ∧ Args.timeout args = Some 10
    ∧ Args.allow_redirects args = true ∧ Args.newline args = linesep
    ∧ ∀ s c, reachable args s → pc s = Exited c →
             yielded s = LinkTask.run <$> added s
             ∧ ∀ t, t ∈ added s →
                    t = seed_task args
                    ∨ (LinkTask.parse_links t = false
                       ∧ ∃ l, l ∈ LinkTask.links (LinkTask.run (seed_task args))
                              ∧ LinkTask.link t = urldefrag l).
Proof.
  set (args := Args.mk url true check check linesep false false 1 (Some 10)).
  exists args. split; [reflexivity|]. split_and!; try done.
  intros s c Hreach Hpc.
  assert (Hone : Args.threads args = 1) by done.
  assert (Hint : Args.internal args ≠ follow) by done.
  assert (Hext : Args.external args ≠ follow) by done.
  split.
  - destruct (one_worker_fifo args s Hone Hreach) as [_ Hfifo].
    by destruct (Hfifo c Hpc).
  - intros t Ht.
    destruct (no_follow_depth_one args s Hint Hext Hreach t Ht)
      as [->|(Hp & _ & l & Hl & Hlink)]; [by left|].
    right. split; [done|]. by exists l.
Qed.

End CommandLine.

(** ** The further properties on the concrete sites *)

Lemma counters_count_tasks_witness :
  st_total_links example_outcome = 5
  ∧ st_total_links example_outcome
    = Z.of_nat (length (added example_outcome))
  ∧ st_total_links example_outcome
    = st_total_internal example_outcome + st_total_external example_outcome.
Proof.
  split; [vm_compute; reflexivity|].
  destruct (@counters_count_tasks CPython example_site example_args
              example_outcome
              (@outcome_reachable CPython example_site example_args 100))
    as (Htotal & Hsum & _).
  split; [exact Htotal|exact Hsum].
Defined.

Lemma tasks_are_conserved_witness :
  pc example_outcome_swapped = Exited 1
  ∧ yielded example_outcome_swapped
    ≡ₚ @LinkTask.run CPython example_site <$> added example_outcome_swapped.
Proof.
  assert (Hpc : pc example_outcome_swapped = Exited 1)
    by (vm_compute; reflexivity).
  split; [exact Hpc|].
  exact (proj2 (proj2 (@tasks_are_conserved CPython example_site example_args
                         example_outcome_swapped
                         example_outcome_swapped_reachable)) 1 Hpc).
Defined.


Lemma tasks_have_distinct_http_urls_witness :
  length (added example_outcome) = 5%nat
  ∧ NoDup (LinkTask.link <$> added example_outcome).
Proof.
  split; [vm_compute; reflexivity|].
  exact (proj1 (@tasks_have_distinct_http_urls CPython example_site
                  example_args example_outcome
                  (@outcome_reachable CPython example_site example_args 100))).
Defined.

Lemma policy_decides_extraction_witness :
  ∃ rest,
    added example_outcome = seed_task example_args :: rest
    ∧ Forall
        (λ t,
           LinkTask.parse_links t = true
           ↔ (if @is_internal CPython example_args (LinkTask.link t)
              then Args.internal example_args
              else Args.external example_args) = follow)
        rest.
Proof.
  destruct (@policy_decides_extraction CPython example_site example_args
              example_outcome
              (@outcome_reachable CPython example_site example_args 100))
    as (rest & Hadded & Hrest).
  exists rest. split; [exact Hadded|]. apply Forall_forall. intros t Ht.
  exact (proj2 (Hrest t Ht)).
Defined.

Lemma depth_one_without_follow_witness :
  length (added default_example_outcome) = 4%nat
  ∧ Forall
      (λ t,
         t = seed_task default_example_args
         ∨ (LinkTask.parse_links t = false
            ∧ LinkTask.exception
                (@LinkTask.run CPython example_site
                   (seed_task default_example_args)) = None
            ∧ ∃ l, l ∈ LinkTask.links
                         (@LinkTask.run CPython example_site
                            (seed_task default_example_args))
                   ∧ LinkTask.link t = @urldefrag CPython l))
      (added default_example_outcome).
Proof.
  split; [vm_compute; reflexivity|]. apply Forall_forall.
  apply (@depth_one_without_follow CPython example_site default_example_args
           default_example_outcome).
  - simpl. discriminate.
  - simpl. discriminate.
  - exact (@outcome_reachable CPython example_site default_example_args 100).
Defined.

Lemma at_most_threads_tasks_running_witness :
  length (workers example_outcome_swapped) = 2%nat
  ∧ Z.of_nat (length (running example_outcome_swapped)
              + acking example_outcome_swapped) ≤ 2.
Proof.
  exact (@at_most_threads_tasks_running CPython example_site example_args
           example_outcome_swapped example_outcome_swapped_reachable).
Defined.

Lemma no_worker_no_exit_witness :
  Args.threads no_worker_args ≤ 0
  ∧ no_worker_outcome = @initial CPython no_worker_args.
Proof.
  assert (Hthreads : Args.threads no_worker_args ≤ 0) by (simpl; lia).
  split; [exact Hthreads|].
  exact (proj1 (@no_worker_no_exit CPython example_site no_worker_args
                  no_worker_outcome Hthreads
                  (@outcome_reachable CPython example_site no_worker_args 20))).
Defined.

Lemma stderr_is_errors_then_summary_witness :
  pc example_outcome = Exited 1
  ∧ stderr example_outcome
    = (yielded example_outcome ≫= error_lines)
      ++ (if Args.quiet example_args then []
          else [print_checked (Z.of_nat (length (added example_outcome)));
                print_scopes (st_total_internal example_outcome)
                  (st_total_external example_outcome);
                print_errors (st_error_task example_outcome)
                  (st_error_link example_outcome)]).
Proof.
  assert (Hpc : pc example_outcome = Exited 1) by (vm_compute; reflexivity).
  split; [exact Hpc|].
  exact (proj2 (proj2 (@stderr_is_errors_then_summary CPython example_site
                         example_args example_outcome
                         (@outcome_reachable CPython example_site example_args
                            100))) 1 Hpc).
Defined.

Lemma stdout_line_count_witness :
  Args.print_all broken_args = true
  ∧ Z.of_nat (length (stdout broken_outcome))
    = (if Args.print_all broken_args
       then Z.of_nat (length (yielded broken_outcome))
            - st_error_task broken_outcome
       else st_error_link broken_outcome).
Proof.
  split; [reflexivity|].
  exact (@stdout_line_count CPython broken_site broken_args broken_outcome
           (@outcome_reachable CPython broken_site broken_args 20)).
Defined.

Lemma one_worker_is_first_in_first_out_witness :
  Args.threads port_args = 1 ∧ pc port_outcome = Exited 0
  ∧ yielded port_outcome
    = @LinkTask.run CPython port_site <$> added port_outcome.
Proof.
  assert (Hone : Args.threads port_args = 1) by reflexivity.
  assert (Hpc : pc port_outcome = Exited 0) by (vm_compute; reflexivity).
  split; [exact Hone|]. split; [exact Hpc|].
  exact (proj1 (proj2 (@one_worker_is_first_in_first_out CPython port_site
                         port_args port_outcome Hone
                         (@outcome_reachable CPython port_site port_args 20))
                  0 Hpc)).
Defined.




Lemma default_options_check_one_page_witness :
  main line_feed (default_options "http://example.test/")
  = inr default_example_args
  ∧ pc default_example_outcome = Exited 1
  ∧ yielded default_example_outcome
    = @LinkTask.run CPython example_site <$> added default_example_outcome.
Proof.
  assert (Hpc : pc default_example_outcome = Exited 1)
    by (vm_compute; reflexivity).
  split; [reflexivity|]. split; [exact Hpc|].
  destruct (@default_options_check_one_page CPython example_site line_feed
              "http://example.test/")
    as (args & Hmain & _ & _ & _ & _ & Hrun).
  injection Hmain as <-.
  exact (proj1 (Hrun default_example_outcome 1
                  (@outcome_reachable CPython example_site default_example_args
                     100) Hpc)).
Defined.
